(** * RayCastEngine: a shallow embedding of the raycaster and its collision code

    The engine computes on [f32] values.  The typedef lives in [integer.h],
    which is not part of the sources at hand, so the embedding is written once
    over an interface [Scalar] that lists exactly the operations the C++ code
    applies to an [f32], and is then read at two instances:

    - [b32]: IEEE-754 binary32 ([spec_float] at precision 24, emax 128) with
      round-to-nearest-even, signed zeros, infinities and NaN.  It is
      executable and is the reading used wherever a claim hinges on what the
      floating-point unit does (division by zero, rounding residue, conversion
      to unsigned).
    - [Rscalar]: exact real arithmetic, the reading of the design document
      ("x, y, z real numbers"), used for the geometric identities.

    Properties of the control structure are proved for every instance. *)

From Stdlib Require Import ZArith List Bool Lia Permutation Sorted.
From Stdlib Require Import Floats.SpecFloat.
From Stdlib Require Import Reals Lra.
Import ListNotations.

Set Implicit Arguments.
Local Open Scope Z_scope.

(** ** The scalar interface *)

Class Scalar (F : Type) : Type := {
  of_Z : Z -> F;              (* integer literals and integer-to-f32 conversion *)
  fadd : F -> F -> F;
  fsub : F -> F -> F;
  fmul : F -> F -> F;
  fdiv : F -> F -> F;
  fneg : F -> F;
  fsqrt : F -> F;             (* std::sqrtf *)
  cosf : F -> F;              (* libm *)
  sinf : F -> F;
  tanf : F -> F;
  ffloor : F -> F;            (* ::floor *)
  to_u32 : F -> Z;            (* the implicit conversion f32 -> u32 *)
  fltb : F -> F -> bool;      (* a < b *)
  fleb : F -> F -> bool;      (* a <= b *)
  M_PI : F
}.

Declare Scope f32_scope.
Delimit Scope f32_scope with f.
Infix "+" := fadd : f32_scope.
Infix "-" := fsub : f32_scope.
Infix "*" := fmul : f32_scope.
Infix "/" := fdiv : f32_scope.
Notation "- x" := (fneg x) : f32_scope.
Infix "<?" := fltb : f32_scope.
Infix "<=?" := fleb : f32_scope.

(** Unsigned 32-bit arithmetic, wrap-around written out. *)
Definition u32_mod : Z := 2 ^ 32.
Definition u32_add (a b : Z) : Z := (a + b) mod u32_mod.
Definition u32_sub (a b : Z) : Z := (a - b) mod u32_mod.
Definition u32_mul (a b : Z) : Z := (a * b) mod u32_mod.

(** ** Vec3 *)

Record Vec3 (F : Type) : Type := mkVec3 { vx : F; vy : F; vz : F }.
Arguments mkVec3 {F} _ _ _.
Arguments vx {F} _.
Arguments vy {F} _.
Arguments vz {F} _.

Section Vec3Ops.
Context {F : Type} {SF : Scalar F}.
Local Open Scope f32_scope.

(** A decimal literal [n/d]: correctly rounded when [n] and [d] are exact. *)
Definition lit (n d : Z) : F := of_Z n / of_Z d.

(** [#define rad(x) (x * 0.0174533f)] *)
Definition rad (x : F) : F := x * lit 174533 10000000.

(** [Vec3(f32 angle, f32 z = 0.0f)] *)
Definition Vec3_angle (angle z : F) : Vec3 F :=
  mkVec3 (cosf angle) (sinf angle) z.

(** [Vec3()] *)
Definition Vec3_zero : Vec3 F := mkVec3 (of_Z 0) (of_Z 0) (of_Z 0).

Definition Vec3_dot (a o : Vec3 F) : F :=
  vx a * vx o + vy a * vy o + vz a * vz o.

Definition Vec3_cross (a o : Vec3 F) : Vec3 F :=
  mkVec3 (vy a * vz o - vz a * vy o)
         (vz a * vx o - vx a * vz o)
         (vx a * vy o - vy a * vx o).

Definition Vec3_add (a o : Vec3 F) : Vec3 F :=
  mkVec3 (vx a + vx o) (vy a + vy o) (vz a + vz o).
Definition Vec3_sub (a o : Vec3 F) : Vec3 F :=
  mkVec3 (vx a - vx o) (vy a - vy o) (vz a - vz o).
Definition Vec3_mul (a o : Vec3 F) : Vec3 F :=
  mkVec3 (vx a * vx o) (vy a * vy o) (vz a * vz o).
Definition Vec3_scale (a : Vec3 F) (o : F) : Vec3 F :=
  mkVec3 (vx a * o) (vy a * o) (vz a * o).
Definition Vec3_div (a : Vec3 F) (o : F) : Vec3 F :=
  mkVec3 (vx a / o) (vy a / o) (vz a / o).

Definition Vec3_length (a : Vec3 F) : F := fsqrt (Vec3_dot a a).
Definition Vec3_normalized (a : Vec3 F) : Vec3 F := Vec3_div a (Vec3_length a).

Definition Vec3_rotateZ (a : Vec3 F) (angle : F) : Vec3 F :=
  let s := sinf angle in
  let c := cosf angle in
  let rx := vx a * c - vy a * s in
  let ry := vx a * s + vy a * c in
  mkVec3 rx ry (vz a).

Definition Vec3_lerp (a to : Vec3 F) (fac : F) : Vec3 F :=
  Vec3_add (Vec3_scale a (of_Z 1 - fac)) (Vec3_scale to fac).

(** [std::min(a, b)] is [(b < a) ? b : a]. *)
Definition std_min (a b : F) : F := if b <? a then b else a.

(** ** raySeg

    The four out-parameters are written only on the [true] path; the result
    is [Some (hit, norm, t, u)] there and [None] on the [false] path.  The
    quotients are computed before the test, with no test of [d23]. *)
Definition raySeg_quotients (o d a b : Vec3 F) : F * F * F :=
  let v1 := Vec3_sub o a in
  let v2 := Vec3_sub b a in
  let v3 := mkVec3 (- vy d) (vx d) (of_Z 0) in
  let d23 := Vec3_dot v2 v3 in
  let t1 := vz (Vec3_cross v2 v1) / d23 in
  let t2 := Vec3_dot v1 v3 / d23 in
  (d23, t1, t2).

Definition raySeg (o d a b : Vec3 F) : option (Vec3 F * Vec3 F * F * F) :=
  let v2 := Vec3_sub b a in
  let '(_, t1, t2) := raySeg_quotients o d a b in
  if (of_Z 0 <=? t1) && (of_Z 0 <=? t2) && (t2 <=? of_Z 1) then
    let hit := mkVec3 (vx a + vx v2 * t2) (vy a + vy v2 * t2) (of_Z 0) in
    (* [Vec3(-v2.y, v2.x)]: two arguments select the (angle, z) constructor *)
    let norm := Vec3_angle (- vy v2) (vx v2) in
    Some (hit, norm, t1, t2)
  else None.

Definition blockSize : F := of_Z 8.
Definition maxDepth : F := of_Z 60.
End Vec3Ops.

(** ** Texture *)

(** [m_pixels] holds bytes ([u8]) as integers in [0, 255]. *)
Record Texture : Type := mkTexture {
  m_width : Z;
  m_height : Z;
  m_pixels : list Z
}.

(** [Texture() = default]: both dimensions zero, no pixels. *)
Definition Texture_default : Texture := mkTexture 0 0 [].


Section TextureOps.
Context {F : Type} {SF : Scalar F}.
Local Open Scope f32_scope.

(** [Texture::get].  A read past the end of [m_pixels] is undefined in the
    source and cannot happen when [m_pixels] has [w * h * 3] bytes; it reads
    as 0 here. *)
Definition get (tex : Texture) (x y : Z) : Vec3 F :=
  if (m_width tex =? 0)%Z || (m_height tex =? 0)%Z
  then mkVec3 (of_Z 1) (of_Z 0) (of_Z 1)
  else
    let x := (x mod m_width tex)%Z in
    let y := (y mod m_height tex)%Z in
    let uvi := u32_mul (u32_add x (u32_mul y (m_width tex))) 3 in
    let px (k : Z) : F :=
      of_Z (nth (Z.to_nat (u32_add uvi k)) (m_pixels tex) 0%Z) / of_Z 255 in
    mkVec3 (px 0%Z) (px 1%Z) (px 2%Z).

(** [Texture::sample] *)
Definition sample (tex : Texture) (u v : F) : Vec3 F :=
  let u := u * of_Z (m_width tex) in
  let v := v * of_Z (m_height tex) in
  let x := to_u32 (ffloor u) in
  let y := to_u32 (ffloor v) in
  let ur := u - of_Z x in
  let vr := v - of_Z y in
  let uo := of_Z 1 - ur in
  let vo := of_Z 1 - vr in
  Vec3_add
    (Vec3_scale (Vec3_add (Vec3_scale (get tex x y) uo)
                          (Vec3_scale (get tex (u32_add x 1) y) ur)) vo)
    (Vec3_scale (Vec3_add (Vec3_scale (get tex x (u32_add y 1)) uo)
                          (Vec3_scale (get tex (u32_add x 1) (u32_add y 1)) ur)) vr).
End TextureOps.

(** ** Lines, hits and models *)

Record Line (F : Type) : Type := mkLine {
  la : Vec3 F;
  lb : Vec3 F;
  lu0 : F;
  lu1 : F;
  ltexture : Texture
}.
Arguments mkLine {F} _ _ _ _ _.
Arguments la {F} _.
Arguments lb {F} _.
Arguments lu0 {F} _.
Arguments lu1 {F} _.
Arguments ltexture {F} _.

Record HitInfo (F : Type) : Type := mkHitInfo {
  hi_line : Line F;
  hi_position : Vec3 F;
  hi_normal : Vec3 F;
  hi_distance : F;
  hi_u : F;
  hi_length : F
}.
Arguments mkHitInfo {F} _ _ _ _ _ _.
Arguments hi_line {F} _.
Arguments hi_position {F} _.
Arguments hi_normal {F} _.
Arguments hi_distance {F} _.
Arguments hi_u {F} _.
Arguments hi_length {F} _.

Record Object (F : Type) : Type := mkObject {
  position : Vec3 F;
  rotation : F
}.
Arguments mkObject {F} _ _.
Arguments position {F} _.
Arguments rotation {F} _.

Record Viewer (F : Type) : Type := mkViewer {
  v_object : Object F;
  fov : F
}.
Arguments mkViewer {F} _ _.
Arguments v_object {F} _.
Arguments fov {F} _.

Record Vert (F : Type) : Type := mkVert {
  pos : Vec3 F;
  vert_u : F
}.
Arguments mkVert {F} _ _.
Arguments pos {F} _.
Arguments vert_u {F} _.

Record Model (F : Type) : Type := mkModel {
  m_object : Object F;
  texture : Texture;
  vertices : list (Vert F);
  indices : list Z
}.
Arguments mkModel {F} _ _ _ _.
Arguments m_object {F} _.
Arguments texture {F} _.
Arguments vertices {F} _.
Arguments indices {F} _.

(** [std::sort] comes from the C++ standard library; the engine only fixes the
    comparator it is called with. *)
Class StdSort : Type := {
  std_sort : forall A : Type, (A -> A -> bool) -> list A -> list A
}.

(** The integers [0, 1, ..., n-1], the range of the counting loops. *)
Definition upto (n : Z) : list Z := map Z.of_nat (seq 0 (Z.to_nat n)).

Section Geometry.
Context {F : Type} {SF : Scalar F}.
Local Open Scope f32_scope.

(** [Line::uv] *)
Definition Line_uv (ln : Line F) (t : F) : F :=
  (of_Z 1 - t) * lu0 ln + lu1 ln * t.

(** [Model()]: position (0, 0, 0), rotation 0, default texture, no geometry. *)
Definition Model_new : Model F :=
  mkModel (mkObject (mkVec3 (of_Z 0) (of_Z 0) (of_Z 0)) (of_Z 0))
          Texture_default [] [].

Definition addVert (m : Model F) (p : Vec3 F) (u : F) : Model F :=
  mkModel (m_object m) (texture m) (vertices m ++ [mkVert p u]) (indices m).

Definition addIndex (m : Model F) (i : Z) : Model F :=
  mkModel (m_object m) (texture m) (vertices m) (indices m ++ [i]).

(** [position.x = x; position.y = y;] *)
Definition set_position_xy (m : Model F) (x y : F) : Model F :=
  mkModel (mkObject (mkVec3 x y (vz (position (m_object m))))
                    (rotation (m_object m)))
          (texture m) (vertices m) (indices m).

(** [model->texture = t] *)
Definition set_texture (m : Model F) (t : Texture) : Model F :=
  mkModel (m_object m) t (vertices m) (indices m).

(** [Block::Block] *)
Definition Block (x y w h : F) : Model F :=
  let m := set_position_xy Model_new x y in
  let u1 := w * of_Z 2 in
  let u2 := h * of_Z 2 in
  let z := of_Z 0 in
  let m := addVert m (mkVec3 z z z) z in
  let m := addVert m (mkVec3 w z z) u1 in
  let m := addVert m (mkVec3 w z z) z in
  let m := addVert m (mkVec3 w h z) u2 in
  let m := addVert m (mkVec3 w h z) z in
  let m := addVert m (mkVec3 z h z) u1 in
  let m := addVert m (mkVec3 z h z) z in
  let m := addVert m (mkVec3 z z z) u2 in
  fold_left addIndex [0; 1; 2; 3; 4; 5; 6; 7]%Z m.



(** The "Create lines" loop of [onDraw] for one model.  [indices] are consumed
    two at a time; an index outside [vertices], or a last index without a
    partner, is an out-of-bounds read in the source and gives [None]. *)
Fixpoint model_lines (m : Model F) (idx : list Z) : option (list (Line F)) :=
  match idx with
  | [] => Some []
  | i0 :: i1 :: rest =>
      match nth_error (vertices m) (Z.to_nat i0),
            nth_error (vertices m) (Z.to_nat i1),
            model_lines m rest with
      | Some va, Some vb, Some ls =>
          Some (mkLine (Vec3_add (pos va) (position (m_object m)))
                       (Vec3_add (pos vb) (position (m_object m)))
                       (vert_u va) (vert_u vb) (texture m) :: ls)
      | _, _, _ => None
      end
  | [_] => None
  end.

Fixpoint create_lines (models : list (Model F)) : option (list (Line F)) :=
  match models with
  | [] => Some []
  | m :: rest =>
      match model_lines m (indices m), create_lines rest with
      | Some l1, Some l2 => Some (l1 ++ l2)
      | _, _ => None
      end
  end.

(** [RayCastGame::closestPoint]: the projected point and the parameter [t]. *)
Definition closestPoint (a b p : Vec3 F) : Vec3 F * F :=
  let ap := Vec3_sub p a in
  let ab := Vec3_sub b a in
  let atb := Vec3_dot ab ab in
  let apab := Vec3_dot ap ab in
  let t := apab / atb in
  (Vec3_add a (Vec3_scale ab t), t).

(** [RayCastGame::circleLines] *)
Fixpoint circleLines (lines : list (Line F)) (o : Vec3 F) (radius : F) : bool :=
  match lines with
  | [] => false
  | line :: rest =>
      let '(p, t) := closestPoint (Vec3_scale (la line) blockSize)
                                  (Vec3_scale (lb line) blockSize) o in
      if (of_Z 0 <=? t) && (t <=? of_Z 1) then
        let d := Vec3_length (Vec3_sub p o) in
        if d <? radius then true else circleLines rest o radius
      else circleLines rest o radius
  end.

(** The collecting loop of [RayCastGame::rayLines]: one entry [(i, hi)] per
    line that [raySeg] accepts, in line order. *)
Fixpoint collect_hits (i : Z) (lines : list (Line F)) (o d : Vec3 F)
    : list (Z * HitInfo F) :=
  match lines with
  | [] => []
  | ln :: rest =>
      let a := Vec3_scale (la ln) blockSize in
      let b := Vec3_scale (lb ln) blockSize in
      match raySeg o d a b with
      | Some (hitPos, hitNorm, dist, u) =>
          let hi := mkHitInfo ln hitPos hitNorm dist u
                      (Vec3_length (Vec3_sub b a) / blockSize * of_Z 2) in
          (i, hi) :: collect_hits (i + 1)%Z rest o d
      | None => collect_hits (i + 1)%Z rest o d
      end
  end.

(** The comparator handed to [std::sort]. *)
Definition by_distance (a b : Z * HitInfo F) : bool :=
  hi_distance (snd a) <? hi_distance (snd b).

(** [RayCastGame::rayLines] *)
Definition rayLines {SS : StdSort} (lines : list (Line F)) (o d : Vec3 F)
    : option (HitInfo F) :=
  let md := collect_hits 0%Z lines o d in
  match std_sort by_distance md with
  | first :: _ => Some (snd first)
  | [] => None
  end.
End Geometry.

(** ** The game object *)

Record RayCastGame (F : Type) : Type := mkGame {
  viewer : Viewer F;
  models : list (Model F);
  lines : list (Line F);
  twall : Texture;
  tfloor : Texture;
  tceil : Texture;
  tpillar : Texture
}.
Arguments mkGame {F} _ _ _ _ _ _ _.
Arguments viewer {F} _.
Arguments models {F} _.
Arguments lines {F} _.
Arguments twall {F} _.
Arguments tfloor {F} _.
Arguments tceil {F} _.
Arguments tpillar {F} _.

(** What [canvas->isHeld] answers for the six keys [onUpdate] asks about. *)
Record Keys : Type := mkKeys {
  held_x : bool;
  held_z : bool;
  held_left : bool;
  held_right : bool;
  held_up : bool;
  held_down : bool
}.

(** The canvas as the renderer sees it: its logical size. *)
Record GameCanvas : Type := mkCanvas {
  width : Z;
  height : Z
}.

(** One call [canvas->put(x, y, r, g, b)]. *)
Record Put (F : Type) : Type := mkPut {
  put_x : Z;
  put_y : Z;
  put_rgb : Vec3 F
}.
Arguments mkPut {F} _ _ _.
Arguments put_x {F} _.
Arguments put_y {F} _.
Arguments put_rgb {F} _.

Section Game.
Context {F : Type} {SF : Scalar F} {SS : StdSort}.
Local Open Scope f32_scope.

Definition set_viewer (g : RayCastGame F) (v : Viewer F) : RayCastGame F :=
  mkGame v (models g) (lines g) (twall g) (tfloor g) (tceil g) (tpillar g).

Definition set_lines (g : RayCastGame F) (ls : list (Line F)) : RayCastGame F :=
  mkGame (viewer g) (models g) ls (twall g) (tfloor g) (tceil g) (tpillar g).

(** The field-of-view clause of [onUpdate]. *)
Definition update_fov (k : Keys) (dt fov0 : F) : F :=
  if held_x k then
    let f := fov0 + dt in
    if rad (of_Z 120) <=? f then rad (of_Z 120) else f
  else if held_z k then
    let f := fov0 - dt in
    if f <=? rad (of_Z 20) then rad (of_Z 20) else f
  else fov0.

(** The rotation clause of [onUpdate]. *)
Definition update_rotation (k : Keys) (dt rot : F) : F :=
  if held_left k then rot - dt * lit 18 10
  else if held_right k then rot + dt * lit 18 10
  else rot.

(** The movement clause of [onUpdate]: the delta is applied, the destination
    tested, and on a collision the same delta is applied backwards. *)
Definition update_position (k : Keys) (dt rot : F) (ls : list (Line F))
    (p : Vec3 F) : Vec3 F :=
  let dir := Vec3_angle rot (of_Z 0) in
  if held_up k then
    let delta := Vec3_scale (Vec3_scale dir dt) (of_Z 4) in
    let p1 := Vec3_add p delta in
    if circleLines ls p1 (lit 8 10) then Vec3_sub p1 delta else p1
  else if held_down k then
    let delta := Vec3_scale (Vec3_scale dir dt) (of_Z 4) in
    let p1 := Vec3_sub p delta in
    if circleLines ls p1 (lit 8 10) then Vec3_add p1 delta else p1
  else p.

(** [RayCastGame::onUpdate] *)
Definition onUpdate (k : Keys) (dt : F) (g : RayCastGame F) : RayCastGame F :=
  let v := viewer g in
  let fov1 := update_fov k dt (fov v) in
  let rot1 := update_rotation k dt (rotation (v_object v)) in
  let pos1 := update_position k dt rot1 (lines g) (position (v_object v)) in
  set_viewer g (mkViewer (mkObject pos1 rot1) fov1).

(** The body of the row loop of [onDraw] for one accepted hit: the single
    [put] issued for row [y] of column [x]. *)
Definition shade_row (g : RayCastGame F) (cv : GameCanvas) (info : HitInfo F)
    (h2 d ceil floor wh fog : F) (x y : Z) : Put F :=
  let vpos := position (v_object (viewer g)) in
  let fwx := vx (hi_position info) in
  let fwy := vy (hi_position info) in
  let yf := of_Z y in
  let hf := of_Z (height cv) in
  let two := of_Z 2 in
  let one := of_Z 1 in
  if yf <=? ceil then
    let dist := hf / (of_Z (u32_sub (height cv) y) - h2) in
    let we := dist / d in
    let cfog := std_min ((h2 - yf) / maxDepth) one in
    let fu := (we * fwx + (one - we) * vx vpos) / two in
    let fv := (we * fwy + (one - we) * vy vpos) / two in
    mkPut x y (Vec3_scale (sample (tceil g) fu fv) cfog)
  else if (ceil <? yf) && (yf <=? floor) then
    let u := Line_uv (hi_line info) (hi_u info) in
    let v := (yf - ceil) / wh in
    mkPut x y (Vec3_scale (sample (ltexture (hi_line info)) u v) fog)
  else
    let u := Line_uv (hi_line info) (hi_u info) in
    let v := (yf - floor) / wh in
    let dist := hf / (yf - h2) in
    let we := dist / d in
    let cfog := std_min ((yf - h2) / maxDepth) one in
    let fu := (we * fwx + (one - we) * vx vpos) / two in
    let fv := (we * fwy + (one - we) * vy vpos) / two in
    let c := Vec3_scale (sample (tfloor g) fu fv) cfog in
    let c :=
      if v <? one then
        let mixFac := (one - v) * we in
        let t := Vec3_scale
                   (Vec3_scale (sample (ltexture (hi_line info)) u (one - v)) fog)
                   cfog in
        Vec3_add c (Vec3_scale t mixFac)
      else c in
    mkPut x y c.

(** The perspective distance and the wall fog factor of an accepted hit. *)
Definition wall_d (thf distance : F) : F := distance * thf.
Definition wall_fog (thf distance : F) : F :=
  of_Z 1 - wall_d thf distance / maxDepth.

(** The ray of column [x]. *)
Definition column_ray (g : RayCastGame F) (cv : GameCanvas) (x : Z) : Vec3 F :=
  let rot := rotation (v_object (viewer g)) in
  let thf := tanf (fov (viewer g) / of_Z 2) in
  let plane := Vec3_rotateZ (mkVec3 (of_Z 0) thf (of_Z 0)) rot in
  let xf := of_Z x / of_Z (width cv) * of_Z 2 - of_Z 1 in
  mkVec3 (cosf rot + vx plane * xf) (sinf rot + vy plane * xf) (of_Z 0).

(** The body of the column loop of [onDraw]: the [put] calls of column [x],
    in row order. *)
Definition draw_column (g : RayCastGame F) (cv : GameCanvas) (x : Z)
    : list (Put F) :=
  let h2 := of_Z (height cv / 2)%Z in
  let thf := tanf (fov (viewer g) / of_Z 2) in
  let rayPos := position (v_object (viewer g)) in
  let rayDir := column_ray g cv x in
  match rayLines (lines g) rayPos rayDir with
  | Some info =>
      if hi_distance info <? maxDepth then
        let d := wall_d thf (hi_distance info) in
        let ceil := h2 - of_Z (height cv) / d in
        let floor := of_Z (height cv) - ceil in
        let wh := floor - ceil in
        let fog := wall_fog thf (hi_distance info) in
        map (shade_row g cv info h2 d ceil floor wh fog x) (upto (height cv))
      else []
  | None => []
  end.

(** [RayCastGame::onDraw]: the line list is rebuilt, the canvas cleared, and
    the columns drawn left to right.  The result is the game with its new
    line list and the [put] calls that follow [canvas->clear()]; the two text
    lines drawn last go through [canvas->str], which is not part of the
    sources. *)
Definition onDraw (g : RayCastGame F) (cv : GameCanvas)
    : option (RayCastGame F * list (Put F)) :=
  match create_lines (models g) with
  | None => None
  | Some ls =>
      let g' := set_lines g ls in
      Some (g', flat_map (draw_column g' cv) (upto (width cv)))
  end.
End Game.

(** ** The binary32 instance *)

Module B32.

Definition prec : Z := 24.
Definition emax : Z := 128.

Definition of_int (z : Z) : spec_float := binary_normalize prec emax z 0 false.

Definition zero : spec_float := S754_zero false.
Definition one : spec_float := Eval vm_compute in of_int 1.

(** The binary32 nearest to pi, 13176795 * 2^-22. *)
Definition pi : spec_float := S754_finite false 13176795 (-22).

Definition add : spec_float -> spec_float -> spec_float := SFadd prec emax.
Definition sub : spec_float -> spec_float -> spec_float := SFsub prec emax.
Definition mul : spec_float -> spec_float -> spec_float := SFmul prec emax.
Definition div : spec_float -> spec_float -> spec_float := SFdiv prec emax.
Definition sqrt : spec_float -> spec_float := SFsqrt prec emax.

(** A division that answers +0 for a zero denominator and is IEEE division
    otherwise: what the arithmetic would be if [x / 0] were not an infinity
    or a NaN. *)
Definition div_zero_to_zero (x y : spec_float) : spec_float :=
  match y with
  | S754_zero _ => zero
  | _ => div x y
  end.

(** [floor]: the largest integral value not above [x]. *)
Definition floor (x : spec_float) : spec_float :=
  match x with
  | S754_finite s m e =>
      if 0 <=? e then x
      else
        let q := Z.shiftr (Z.pos m) (- e) in
        let exact := Z.shiftl q (- e) =? Z.pos m in
        if s then of_int (- (if exact then q else q + 1))
        else of_int q
  | _ => x
  end.

(** Truncation toward zero of a finite value, as an integer. *)
Definition trunc (x : spec_float) : Z :=
  match x with
  | S754_finite s m e =>
      let a := if 0 <=? e then Z.shiftl (Z.pos m) e
               else Z.shiftr (Z.pos m) (- e) in
      if s then - a else a
  | _ => 0
  end.

(** Conversion to [u32].  In range it is the truncation.  Out of range
    (negative, or 2^32 and above, or not finite) C++ leaves the result
    undefined; two results that compilers produce are offered: the low 32
    bits of the truncation (x86-64) and saturation to the range (AArch64). *)
Definition to_u32_wrap (x : spec_float) : Z := trunc x mod u32_mod.
Definition to_u32_sat (x : spec_float) : Z :=
  Z.max 0 (Z.min (trunc x) (u32_mod - 1)).

(** The three libm functions are not part of the repository either.  The
    instance evaluates truncated Maclaurin series in binary32; they are exact
    at 0 (cos 0 = 1, sin 0 = +0, tan 0 = +0).  Where a scene evaluates them
    at another angle, what is stated of it does not depend on the value
    returned: the number of passes of a loop, the shape of a vertex, that a
    colour is finite. *)
Definition sq (x : spec_float) : spec_float := mul x x.
Definition maclaurin_cos (x : spec_float) : spec_float :=
  let x2 := sq x in
  sub one (mul x2 (sub (div one (of_int 2))
                       (mul x2 (sub (div one (of_int 24))
                                    (div x2 (of_int 720)))))).
Definition maclaurin_sin (x : spec_float) : spec_float :=
  let x2 := sq x in
  mul x (sub one (mul x2 (sub (div one (of_int 6))
                              (mul x2 (sub (div one (of_int 120))
                                           (div x2 (of_int 5040))))))).
Definition maclaurin_tan (x : spec_float) : spec_float :=
  div (maclaurin_sin x) (maclaurin_cos x).

(** Neither an infinity nor a NaN. *)
Definition is_finite (x : spec_float) : bool :=
  match x with
  | S754_zero _ | S754_finite _ _ _ => true
  | _ => false
  end.

End B32.

(** The instance, with the division and the conversion to [u32] left open so
    that a proof can say what depends on them. *)
Definition b32_with (div : spec_float -> spec_float -> spec_float)
    (cast : spec_float -> Z) : Scalar spec_float :=
  {| of_Z := B32.of_int;
     fadd := B32.add;
     fsub := B32.sub;
     fmul := B32.mul;
     fdiv := div;
     fneg := SFopp;
     fsqrt := B32.sqrt;
     cosf := B32.maclaurin_cos;
     sinf := B32.maclaurin_sin;
     tanf := B32.maclaurin_tan;
     ffloor := B32.floor;
     to_u32 := cast;
     fltb := SFltb;
     fleb := SFleb;
     M_PI := B32.pi |}.

(** IEEE-754 binary32 as the engine runs on x86-64. *)
Definition b32 : Scalar spec_float := b32_with B32.div B32.to_u32_wrap.

(** The same with a saturating conversion to [u32]. *)
Definition b32_sat : Scalar spec_float := b32_with B32.div B32.to_u32_sat.

(** The same with [x / 0 = 0]. *)
Definition b32_div0 : Scalar spec_float :=
  b32_with B32.div_zero_to_zero B32.to_u32_wrap.

(** ** The exact instance *)

Definition Rltb (x y : R) : bool := if Rlt_dec x y then true else false.
Definition Rleb (x y : R) : bool := if Rle_dec x y then true else false.

(** Truncation toward zero, then the low 32 bits (see [B32.to_u32_wrap]). *)
Definition R_to_u32 (x : R) : Z :=
  (if Rle_dec 0 x then Int_part x else - Int_part (- x)) mod u32_mod.

Definition Rscalar : Scalar R :=
  {| of_Z := IZR;
     fadd := Rplus;
     fsub := Rminus;
     fmul := Rmult;
     fdiv := Rdiv;
     fneg := Ropp;
     fsqrt := sqrt;
     cosf := cos;
     sinf := sin;
     tanf := tan;
     ffloor := fun x => IZR (Int_part x);
     to_u32 := R_to_u32;
     fltb := Rltb;
     fleb := Rleb;
     M_PI := PI |}.

(** ** A reference [std::sort]: stable insertion sort *)

Fixpoint insert_by {A : Type} (comp : A -> A -> bool) (x : A) (l : list A)
    : list A :=
  match l with
  | [] => [x]
  | y :: l' => if comp y x then y :: insert_by comp x l' else x :: l
  end.

Definition insertion_sort {A : Type} (comp : A -> A -> bool) (l : list A)
    : list A :=
  fold_right (insert_by comp) [] l.

Definition insertion_StdSort : StdSort :=
  {| std_sort := fun A => @insertion_sort A |}.

(** ** Vocabulary of the statements *)

(** What [std::sort] asks of its comparator on the elements it is given
    (a strict weak ordering), in the two consequences the proofs use. *)
Definition comparator_ok {A : Type} (comp : A -> A -> bool) (l : list A) : Prop :=
  (forall a b, In a l -> In b l -> comp a b = true -> comp b a = false) /\
  (forall a b c, In a l -> In b l -> In c l ->
     comp b a = false -> comp c b = false -> comp c a = false).

(** What [std::sort] promises: the result is a rearrangement of the input,
    and no element is less than one placed before it. *)
Definition sort_contract (SS : StdSort) : Prop :=
  forall (A : Type) (comp : A -> A -> bool) (l : list A),
    Permutation (std_sort comp l) l /\
    (comparator_ok comp l ->
     StronglySorted (fun a b => comp b a = false) (std_sort comp l)).

(** The order facts used about [<] and [<=] on the values that pass the
    test [0 <= x] (in binary32: on the values that are not NaN). *)
Definition order_ok {F : Type} (SF : Scalar F) : Prop :=
  (forall x y, fleb (of_Z 0) x = true -> fleb (of_Z 0) y = true ->
     fltb x y = true -> fltb y x = false) /\
  (forall x y z, fleb (of_Z 0) x = true -> fleb (of_Z 0) y = true ->
     fleb (of_Z 0) z = true ->
     fltb y x = false -> fltb z y = false -> fltb z x = false) /\
  (forall x y, fleb (of_Z 0) x = true -> fleb (of_Z 0) y = true ->
     fltb y x = false -> fleb x y = true).

Section Vocabulary.
Context {F : Type} {SF : Scalar F}.

(** A line in world units, as [rayLines] and [circleLines] scale it. *)
Definition world_a (ln : Line F) : Vec3 F := Vec3_scale (la ln) blockSize.
Definition world_b (ln : Line F) : Vec3 F := Vec3_scale (lb ln) blockSize.

(** [ln] yields a valid intersection at ray distance [t]. *)
Definition hits_at (o d : Vec3 F) (ln : Line F) (t : F) : Prop :=
  exists hp hn u, raySeg o d (world_a ln) (world_b ln) = Some (hp, hn, t, u).

(** [info] is the record [rayLines] builds for the hit of [ln]. *)
Definition hit_of (o d : Vec3 F) (ln : Line F) (info : HitInfo F) : Prop :=
  hi_line info = ln /\
  raySeg o d (world_a ln) (world_b ln) =
    Some (hi_position info, hi_normal info, hi_distance info, hi_u info).

(** [perp(v)], the vector rotated by a quarter turn. *)
Definition perp (v : Vec3 F) : Vec3 F := mkVec3 (fneg (vy v)) (vx v) (of_Z 0).


(** [ln] blocks the position [p] for the radius [r]: the test in the loop
    body of [circleLines]. *)
Definition blocks (ln : Line F) (p : Vec3 F) (r : F) : Prop :=
  let cp := closestPoint (world_a ln) (world_b ln) p in
  fleb (of_Z 0) (snd cp) = true /\ fleb (snd cp) (of_Z 1) = true /\
  fltb (Vec3_length (Vec3_sub (fst cp) p)) r = true.

End Vocabulary.


(** ** Concrete scenes in binary32 *)

Module Scene.

Definition num (n : Z) : spec_float := B32.of_int n.
Definition dec (n d : Z) : spec_float := @lit _ b32 n d.
Definition vec (x y : Z) : Vec3 spec_float := mkVec3 (num x) (num y) (num 0).

(** The room of [onSetup], [Block(0, 0, 6, 6)], and a larger room around it. *)
Definition room : Model spec_float := @Block _ b32 (num 0) (num 0) (num 6) (num 6).
Definition outer_room : Model spec_float :=
  @Block _ b32 (num (-1)) (num (-1)) (num 8) (num 8).

Definition lines_of (ms : list (Model spec_float)) : list (Line spec_float) :=
  match @create_lines _ b32 ms with
  | Some ls => ls
  | None => []
  end.

Definition room_lines : list (Line spec_float) :=
  Eval vm_compute in lines_of [room].
Definition two_rooms_lines : list (Line spec_float) :=
  Eval vm_compute in lines_of [room; outer_room].

(** The wall [x = 6] of the inner room and the wall [x = 7] of the outer one
    (48 and 56 in world units). *)
Definition near_wall : Line spec_float := nth 1 two_rooms_lines (mkLine (vec 0 0) (vec 0 0) (num 0) (num 0) Texture_default).
Definition far_wall : Line spec_float := nth 5 two_rooms_lines (mkLine (vec 0 0) (vec 0 0) (num 0) (num 0) Texture_default).

(** The viewer of [onSetup] stands at (8, 8); [east] is the ray of rotation 0. *)
Definition eye : Vec3 spec_float := vec 8 8.
Definition east : Vec3 spec_float := vec 1 0.

(** A 2 x 1 texture: one black texel, one white texel. *)
Definition checker : Texture := mkTexture 2 1 [0; 0; 0; 255; 255; 255].

(** A narrower room, [Block(0, 0, 1.1f, 6)]: its east wall stands at 8.8 in
    world units. *)
Definition corridor : Model spec_float :=
  @Block _ b32 (num 0) (num 0) (dec 11 10) (num 6).
Definition corridor_lines : list (Line spec_float) :=
  Eval vm_compute in lines_of [corridor].

(** [f32(1.0 / 60.0)], the step [run] passes to [onUpdate]. *)
Definition dt : spec_float := S754_finite false 8947849 (-29).

Definition key_up : Keys := mkKeys false false false false true false.

(** A game whose viewer stands at (7.94f, 24) in the corridor, rotation 0,
    field of view [rad(90)], after a frame has been drawn. *)
Definition walker_position : Vec3 spec_float := mkVec3 (dec 794 100) (num 24) (num 0).
Definition walker : RayCastGame spec_float :=
  mkGame (mkViewer (mkObject walker_position (num 0)) (@rad _ b32 (num 90)))
         [corridor] corridor_lines
         Texture_default Texture_default Texture_default Texture_default.

(** The displacement of one step forward at rotation 0. *)
Definition step_forward : Vec3 spec_float :=
  @Vec3_scale _ b32 (@Vec3_scale _ b32 (@Vec3_angle _ b32 (num 0) (num 0)) dt) (num 4).

End Scene.

Section Quotients.
Context {F : Type} {SF : Scalar F}.

(** The denominator and the segment parameter [raySeg] computes before its
    test. *)
Definition ray_denominator (o d a b : Vec3 F) : F :=
  fst (fst (raySeg_quotients o d a b)).
Definition ray_t2 (o d a b : Vec3 F) : F := snd (raySeg_quotients o d a b).
End Quotients.

(** "The division by a zero denominator is guarded": on a zero denominator
    the answer is no-hit whatever the division would return there. *)
Definition guards_zero_denominator : Prop :=
  forall (div : spec_float -> spec_float -> spec_float) (o d a b : Vec3 spec_float),
    SFeqb (@ray_denominator _ (b32_with div B32.to_u32_wrap) o d a b) B32.zero = true ->
    @raySeg _ (b32_with div B32.to_u32_wrap) o d a b = None.

(** ** The plane geometry of the design document

    These definitions follow the words of the design document, not the
    code; the statements on collision and on the polygon generator compare
    what the code computes with them.  They are over the exact reals. *)






(** ** Vocabulary of the polygon generator and sentinel statements *)



(** * The canvas and the frame loop *)

(** ** GameCanvas: size, pixel buffer, put, clear, rect, line *)

(** [downScale = std::max(std::min(downScale, u32(6)), u32(1))] *)
Definition clamp_downScale (downScale : Z) : Z := Z.max (Z.min downScale 6) 1.

(** The logical size the constructor computes from the window size. *)
Definition GameCanvas_new (w h downScale : Z) : GameCanvas :=
  let ds := clamp_downScale downScale in
  mkCanvas (w / ds) (h / ds).

(** The locked pixel buffer [m_pixels], one byte per index. *)
Definition Pixels : Type := Z -> Z.

Definition poke (buf : Pixels) (i v : Z) : Pixels :=
  fun j => if j =? i then v else buf j.

(** [m_pixels[i + 0] = r; m_pixels[i + 1] = g; m_pixels[i + 2] = b;] with the
    index a [u32]. *)
Definition poke3 (buf : Pixels) (i r g b : Z) : Pixels :=
  poke (poke (poke buf (u32_add i 0) r) (u32_add i 1) g) (u32_add i 2) b.

(** The values an [i32] loop variable takes in
    [for (i32 r = start; r < start + len; r++)] with [len] a [u32]: the sum
    and the comparison are unsigned.  (A variable driven past 2^31 - 1
    overflows, which is undefined and not modelled.) *)
Definition i32_span (start len : Z) : list Z :=
  let s := start mod u32_mod in
  let bound := u32_add start len in
  if s <? bound then map (fun k => start + k) (upto (bound - s)) else [].

Section CanvasOps.
Context {F : Type} {SF : Scalar F}.
Local Open Scope f32_scope.

(** [#define Clamp(x, a, b) (x < a ? a : x > b ? b : x)] *)
Definition Clamp (x a b : F) : F :=
  if x <? a then a else if b <? x then b else x.

(** [#define Col(v) u8(Clamp(v * 255.0f, 0.0f, 255.0f))]: the conversion to
    [u8] truncates a value of the range; out of it (a NaN) it is undefined
    and reads here as the low byte of [to_u32]. *)
Definition Col (v : F) : Z :=
  to_u32 (Clamp (v * of_Z 255) (of_Z 0) (of_Z 255)) mod 256.

(** [GameCanvas::put] *)
Definition GameCanvas_put (cv : GameCanvas) (buf : Pixels) (x y : Z)
    (c : Vec3 F) : Pixels :=
  if (x <? 0)%Z || (width cv <=? x)%Z || (y <? 0)%Z || (height cv <=? y)%Z
  then buf
  else
    let i := u32_mul (u32_add x (u32_mul y (width cv))) 3 in
    poke3 buf i (Col (vx c)) (Col (vy c)) (Col (vz c)).

(** [GameCanvas::clear] *)
Definition GameCanvas_clear (cv : GameCanvas) (buf : Pixels) (c : Vec3 F)
    : Pixels :=
  fold_left (fun b i => poke3 b (u32_mul i 3) (Col (vx c)) (Col (vy c)) (Col (vz c)))
            (upto (u32_mul (width cv) (height cv))) buf.

(** [GameCanvas::rect] *)
Definition GameCanvas_rect (cv : GameCanvas) (buf : Pixels) (x y w h : Z)
    (c : Vec3 F) : Pixels :=
  fold_left
    (fun b ry =>
       fold_left (fun b rx => GameCanvas_put cv b rx ry c) (i32_span x w) b)
    (i32_span y h) buf.

(** The loop of [GameCanvas::line], [while (true) { put(x, y); if (x == x2
    && y == y2) break; ... }], over whatever [put] does to the state [A].
    [None] means that the fuel ran out before the [break].  The integers are
    [int]; their overflow is undefined and not modelled. *)
Fixpoint line_loop {A : Type} (visit : A -> Z -> Z -> A) (fuel : nat)
    (x2 y2 dx dy sx sy x y err : Z) (acc : A) : option A :=
  match fuel with
  | O => None
  | S fuel' =>
      let acc := visit acc x y in
      if ((x =? x2) && (y =? y2))%Z then Some acc
      else
        let e2 := (2 * err)%Z in
        let '(err, x) := if (dy <=? e2)%Z then ((err + dy)%Z, (x + sx)%Z)
                         else (err, x) in
        let '(err, y) := if (e2 <=? dx)%Z then ((err + dx)%Z, (y + sy)%Z)
                         else (err, y) in
        line_loop visit fuel' x2 y2 dx dy sx sy x y err acc
  end.

(** The setup of [GameCanvas::line] followed by its loop. *)
Definition line_from {A : Type} (visit : A -> Z -> Z -> A) (fuel : nat)
    (x1 y1 x2 y2 : Z) (acc : A) : option A :=
  let dx := Z.abs (x2 - x1) in
  let sx := if (x1 <? x2)%Z then 1%Z else (-1)%Z in
  let dy := (- Z.abs (y2 - y1))%Z in
  let sy := if (y1 <? y2)%Z then 1%Z else (-1)%Z in
  let err := (dx + dy)%Z in
  line_loop visit fuel x2 y2 dx dy sx sy x1 y1 err acc.

(** [GameCanvas::line] *)
Definition GameCanvas_line (fuel : nat) (cv : GameCanvas) (buf : Pixels)
    (x1 y1 x2 y2 : Z) (c : Vec3 F) : option Pixels :=
  line_from (fun b x y => GameCanvas_put cv b x y c) fuel x1 y1 x2 y2 buf.

(** The buffer at the end of the column loop of [onDraw]:
    [canvas->clear()] with its default colour (0, 0, 0), then the [put]
    calls of the columns in order.  The two [canvas->str] calls that follow
    the loop draw text over this buffer; their code is not part of the
    sources, and the buffer after them is not described here. *)
Definition paint_columns (cv : GameCanvas) (buf : Pixels) (puts : list (Put F)) : Pixels :=
  fold_left (fun b p => GameCanvas_put cv b (put_x p) (put_y p) (put_rgb p))
            puts
            (GameCanvas_clear cv buf (mkVec3 (of_Z 0) (of_Z 0) (of_Z 0))).
End CanvasOps.

(** The pixels [line] visits, in order. *)
Definition line_points (fuel : nat) (x1 y1 x2 y2 : Z) : option (list (Z * Z)) :=
  line_from (fun l x y => l ++ [(x, y)]) fuel x1 y1 x2 y2 [].

(** ** GameCanvas::run: keyboard state and the fixed time step *)

(** [struct State { bool pressed, released, held; }] *)
Record KeyState : Type := mkKeyState {
  pressed : bool;
  released : bool;
  held : bool
}.

(** [m_keyboard], read through [operator[]], which answers an all-false
    state for a key never seen. *)
Definition Keyboard : Type := Z -> KeyState.

(** What [SDL_PollEvent] delivers, as far as [run] looks at it. *)
Inductive Event : Type :=
| SDL_QUIT
| SDL_KEYDOWN (sym : Z)
| SDL_KEYUP (sym : Z)
| SDL_OTHER.

(** The loop over [m_keyboard] at the start of a frame. *)
Definition begin_frame (kb : Keyboard) : Keyboard :=
  fun k => mkKeyState false false (held (kb k)).

Definition set_key (kb : Keyboard) (sym : Z) (s : KeyState) : Keyboard :=
  fun k => if k =? sym then s else kb k.

(** The [switch] of the event loop, on the pair (running, keyboard). *)
Definition handle_event (st : bool * Keyboard) (e : Event) : bool * Keyboard :=
  let '(running, kb) := st in
  match e with
  | SDL_QUIT => (false, kb)
  | SDL_KEYDOWN sym =>
      (running, set_key kb sym (mkKeyState true (released (kb sym)) true))
  | SDL_KEYUP sym =>
      (running, set_key kb sym (mkKeyState (pressed (kb sym)) true false))
  | SDL_OTHER => (running, kb)
  end.

(** One frame of input: the reset, then the queued events in order. *)
Definition poll_events (running : bool) (kb : Keyboard) (events : list Event)
    : bool * Keyboard :=
  fold_left handle_event events (running, begin_frame kb).

Definition isPressed (kb : Keyboard) (key : Z) : bool := pressed (kb key).
Definition isReleased (kb : Keyboard) (key : Z) : bool := released (kb key).
Definition isHeld (kb : Keyboard) (key : Z) : bool := held (kb key).

Section FixedStep.
Context {F : Type} {SF : Scalar F} {G : Type}.
Local Open Scope f32_scope.

(** [while (accum >= timeStep) { onUpdate(...); accum -= timeStep;
    canRender = true; }] with [update] standing for the adapter's
    [onUpdate] at the fixed step.  The result is the game, what is left in
    the accumulator and [canRender]. *)
Fixpoint update_loop (fuel : nat) (update : G -> G) (timeStep accum : F)
    (g : G) (canRender : bool) : option (G * F * bool) :=
  match fuel with
  | O => None
  | S fuel' =>
      if timeStep <=? accum
      then update_loop fuel' update timeStep (accum - timeStep) (update g) true
      else Some (g, accum, canRender)
  end.
End FixedStep.

(** [n] applications of [f]. *)
Fixpoint iterate {A : Type} (n : nat) (f : A -> A) (a : A) : A :=
  match n with
  | O => a
  | S n' => iterate n' f (f a)
  end.

(** ** Vocabulary of the canvas statements *)

(** The three bytes of the pixel (x, y), as the presentation reads them. *)
Definition pixel_at (cv : GameCanvas) (buf : Pixels) (x y : Z) : Z * Z * Z :=
  let i := 3 * (x + y * width cv) in
  (buf i, buf (i + 1), buf (i + 2)).

(** The three bytes [put] stores for a colour. *)
Definition Col3 {F : Type} {SF : Scalar F} (c : Vec3 F) : Z * Z * Z :=
  (Col (vx c), Col (vy c), Col (vz c)).

(** (x, y) is a pixel of the canvas. *)
Definition on_canvas (cv : GameCanvas) (x y : Z) : Prop :=
  0 <= x < width cv /\ 0 <= y < height cv.

(** The buffer of the canvas is addressable by a [u32]. *)
Definition addressable (cv : GameCanvas) : Prop :=
  0 <= width cv /\ 0 <= height cv /\ width cv * height cv * 3 <= u32_mod.

(** The position a [put] call addresses. *)
Definition put_pos {F : Type} (p : Put F) : Z * Z := (put_x p, put_y p).

(** ** Small scenes for the canvas statements *)

Module Demo.

(** A viewer at (8, 8) with rotation 0 and a field of view of 1 radian, and
    a game whose floor and ceiling textures are the two-texel texture. *)
Definition wide_viewer : Viewer spec_float :=
  mkViewer (mkObject Scene.eye (Scene.num 0)) (Scene.num 1).
Definition textured_game (ms : list (Model spec_float))
    : RayCastGame spec_float :=
  mkGame wide_viewer ms []
         Texture_default Scene.checker Scene.checker Texture_default.

Definition canvas : GameCanvas := mkCanvas 4 3.

(** A buffer holding 7 in every byte. *)
Definition grey : Pixels := fun _ => 7.

Definition red : Vec3 spec_float := mkVec3 (Scene.num 1) (Scene.num 0) (Scene.num 0).

End Demo.

(** Equality of pixel positions is decidable. *)
Definition pos_eq_dec (a b : Z * Z) : {a = b} + {a <> b}.
Proof. decide equality; apply Z.eq_dec. Defined.

(** The last key event for [key] in a batch: [Some true] for a key-down,
    [Some false] for a key-up, [None] when the batch has none. *)
Fixpoint last_key_event (key : Z) (events : list Event) : option bool :=
  match events with
  | [] => None
  | e :: rest =>
      match last_key_event key rest with
      | Some b => Some b
      | None =>
          match e with
          | SDL_KEYDOWN sym => if sym =? key then Some true else None
          | SDL_KEYUP sym => if sym =? key then Some false else None
          | _ => None
          end
      end
  end.

Definition is_keydown (key : Z) (e : Event) : bool :=
  match e with SDL_KEYDOWN sym => sym =? key | _ => false end.
Definition is_keyup (key : Z) (e : Event) : bool :=
  match e with SDL_KEYUP sym => sym =? key | _ => false end.
Definition is_quit (e : Event) : bool :=
  match e with SDL_QUIT => true | _ => false end.

(** A scene over the exact reals: one wall from (0, 0) to (0, 1) and a
    viewer at (1, 20) looking along +x with a field of view of 90 degrees. *)
Module ExactDemo.
Definition wall : Line R :=
  mkLine (mkVec3 0%R 0%R 0%R) (mkVec3 0%R 1%R 0%R) 0%R 1%R Texture_default.
Definition game : RayCastGame R :=
  mkGame (mkViewer (mkObject (mkVec3 1%R 20%R 0%R) 0%R) (@rad R Rscalar 90%R))
         [] [wall] Texture_default Texture_default Texture_default
         Texture_default.

(** A 4 x 3 canvas and the two ends, in world units, of a wall that
    crosses the viewer's line of sight at x = 8. *)
Definition canvas : GameCanvas := mkCanvas 4 3.
Definition far_a : Vec3 R := mkVec3 8%R 0%R 0%R.
Definition far_b : Vec3 R := mkVec3 8%R 32%R 0%R.
End ExactDemo.

(** ** Vocabulary of the texture statements *)

(** Every stored byte is a byte ([m_pixels] is a vector of [u8]). *)
Definition byte_pixels (tex : Texture) : Prop :=
  Forall (fun p => 0 <= p <= 255) (m_pixels tex).

(** Each channel of the colour is between 0 and 1. *)
Definition unit_colour (c : Vec3 R) : Prop :=
  (0 <= vx c <= 1)%R /\ (0 <= vy c <= 1)%R /\ (0 <= vz c <= 1)%R.

(** ** Vocabulary of the binary32 statements *)

(** A zero of either sign, or a NaN: what is left of a coordinate
    difference [x - x]. *)
Definition zero_or_nan (x : spec_float) : Prop :=
  x = S754_nan \/ exists s, x = S754_zero s.

(** * Part II: properties *)

(** ** Order facts of binary32 on the values that are not NaN *)

Lemma b32_nonneg_cases (x : spec_float) :
  SFleb B32.zero x = true ->
  (exists s, x = S754_zero s) \/ x = S754_infinity false \/
  (exists m e, x = S754_finite false m e).
Proof.
  destruct x as [s | s | | s m e]; simpl; unfold SFleb; simpl.
  - intros _. left. now exists s.
  - destruct s; [discriminate | auto].
  - discriminate.
  - destruct s; [discriminate |]. intros _. right. right. now exists m, e.
Qed.

Lemma SFltb_finite_pos (m1 : positive) (e1 : Z) (m2 : positive) (e2 : Z) :
  SFltb (S754_finite false m1 e1) (S754_finite false m2 e2) = true <->
  (e1 < e2 \/ (e1 = e2 /\ (m1 < m2)%positive)).
Proof.
  unfold SFltb, SFcompare.
  change (PosDef.Pos.compare_cont Eq m1 m2) with (Pos.compare m1 m2).
  destruct (Z.compare_spec e1 e2) as [He | He | He];
    [destruct (Pos.compare_spec m1 m2) as [Hm | Hm | Hm] | |];
    split; intros Hx; try discriminate; try reflexivity; try lia.
Qed.

Lemma SFleb_finite_pos (m1 : positive) (e1 : Z) (m2 : positive) (e2 : Z) :
  SFleb (S754_finite false m1 e1) (S754_finite false m2 e2) = true <->
  (e1 < e2 \/ (e1 = e2 /\ (m1 <= m2)%positive)).
Proof.
  unfold SFleb, SFcompare.
  change (PosDef.Pos.compare_cont Eq m1 m2) with (Pos.compare m1 m2).
  destruct (Z.compare_spec e1 e2) as [He | He | He];
    [destruct (Pos.compare_spec m1 m2) as [Hm | Hm | Hm] | |];
    split; intros Hx; try discriminate; try reflexivity; try lia.
Qed.

Lemma SFltb_false_iff_finite_pos (m1 : positive) (e1 : Z) (m2 : positive) (e2 : Z) :
  SFltb (S754_finite false m1 e1) (S754_finite false m2 e2) = false <->
  (e2 < e1 \/ (e1 = e2 /\ (m2 <= m1)%positive)).
Proof.
  pose proof (SFltb_finite_pos m1 e1 m2 e2) as Hlt.
  destruct (SFltb (S754_finite false m1 e1) (S754_finite false m2 e2)).
  - split; [discriminate |]. intros Hx.
    assert (e1 < e2 \/ e1 = e2 /\ (m1 < m2)%positive) by now apply Hlt. lia.
  - split; [| reflexivity]. intros _.
    assert (~ (e1 < e2 \/ e1 = e2 /\ (m1 < m2)%positive)) as Hn
      by (intros Hx; apply Hlt in Hx; discriminate).
    lia.
Qed.

Ltac b32_split x Hx :=
  destruct (b32_nonneg_cases x Hx) as [[? ->] | [-> | [? [? ->]]]].

Lemma b32_order_ok : order_ok b32.
Proof.
  unfold order_ok; simpl. repeat split.
  - intros x y Hx Hy. b32_split x Hx; b32_split y Hy;
      try (unfold SFltb; simpl; congruence).
    rewrite SFltb_finite_pos, SFltb_false_iff_finite_pos. lia.
  - intros x y z Hx Hy Hz.
    b32_split x Hx; b32_split y Hy; b32_split z Hz;
      try (unfold SFltb; simpl; congruence).
    rewrite !SFltb_false_iff_finite_pos. lia.
  - intros x y Hx Hy. b32_split x Hx; b32_split y Hy;
      try (unfold SFltb, SFleb; simpl; congruence).
    rewrite SFltb_false_iff_finite_pos, SFleb_finite_pos. lia.
Qed.

(** ** The reference sort meets the contract of [std::sort] *)

Section InsertionSort.
Context {A : Type} (comp : A -> A -> bool).

Lemma insert_by_perm (x : A) (l : list A) :
  Permutation (insert_by comp x l) (x :: l).
Proof.
  induction l as [| y l IH]; simpl; [reflexivity |].
  destruct (comp y x); [| reflexivity].
  rewrite IH. apply perm_swap.
Qed.

Lemma insertion_sort_perm (l : list A) : Permutation (insertion_sort comp l) l.
Proof.
  induction l as [| x l IH]; simpl; [reflexivity |].
  rewrite insert_by_perm. now constructor.
Qed.

Lemma insert_by_sorted (u : list A) (x : A) (l : list A) :
  comparator_ok comp u -> In x u -> incl l u ->
  StronglySorted (fun a b => comp b a = false) l ->
  StronglySorted (fun a b => comp b a = false) (insert_by comp x l).
Proof.
  intros [Hasym Hneg] Hx Hl Hs.
  induction Hs as [| y l Hs IH Hy]; simpl.
  - constructor; constructor.
  - assert (In y u) as Hyu by (apply Hl; now left).
    assert (incl l u) as Hlu by (intros z Hz; apply Hl; now right).
    destruct (comp y x) eqn:Hyx.
    + constructor; [now apply IH |].
      rewrite Forall_forall. intros z Hz.
      apply (Permutation_in _ (insert_by_perm x l)) in Hz.
      destruct Hz as [<- | Hz].
      * now apply Hasym.
      * rewrite Forall_forall in Hy. now apply Hy.
    + constructor; [now constructor |].
      constructor; [exact Hyx |].
      rewrite Forall_forall. intros z Hz.
      rewrite Forall_forall in Hy.
      apply (Hneg x y z); auto.
Qed.

Lemma insertion_sort_sorted (l : list A) :
  comparator_ok comp l ->
  StronglySorted (fun a b => comp b a = false) (insertion_sort comp l).
Proof.
  intros Hok.
  assert (forall k, incl k l ->
            StronglySorted (fun a b => comp b a = false) (insertion_sort comp k))
    as Hgen.
  { induction k as [| x k IH]; intros Hk; simpl; [constructor |].
    apply insert_by_sorted with (u := l); auto.
    - apply Hk. now left.
    - intros z Hz. apply Hk. right.
      now apply (Permutation_in _ (insertion_sort_perm k)).
    - apply IH. intros z Hz. apply Hk. now right. }
  apply Hgen. apply incl_refl.
Qed.
End InsertionSort.

Lemma insertion_sort_contract : sort_contract insertion_StdSort.
Proof.
  intros A comp l. split.
  - apply insertion_sort_perm.
  - apply insertion_sort_sorted.
Qed.

(** ** raySeg: what a hit carries *)

Section RaySegFacts.
Context {F : Type} {SF : Scalar F}.

Lemma raySeg_some (o d a b hp hn : Vec3 F) (t u : F) :
  raySeg o d a b = Some (hp, hn, t, u) ->
  fleb (of_Z 0) t = true /\ fleb (of_Z 0) u = true /\ fleb u (of_Z 1) = true /\
  raySeg_quotients o d a b = (fst (fst (raySeg_quotients o d a b)), t, u).
Proof.
  unfold raySeg.
  destruct (raySeg_quotients o d a b) as [[d23 t1] t2] eqn:Hq.
  destruct (fleb (of_Z 0) t1) eqn:H1; simpl; [| discriminate].
  destruct (fleb (of_Z 0) t2) eqn:H2; simpl; [| discriminate].
  destruct (fleb t2 (of_Z 1)) eqn:H3; simpl; [| discriminate].
  intros Heq. injection Heq as _ _ <- <-. auto.
Qed.

(** The decision of [raySeg] is the three comparisons on the quotients. *)
Lemma raySeg_hit_iff (o d a b : Vec3 F) :
  let '(_, t1, t2) := raySeg_quotients o d a b in
  (raySeg o d a b <> None <->
   fleb (of_Z 0) t1 = true /\ fleb (of_Z 0) t2 = true /\ fleb t2 (of_Z 1) = true).
Proof.
  unfold raySeg.
  destruct (raySeg_quotients o d a b) as [[d23 t1] t2].
  destruct (fleb (of_Z 0) t1), (fleb (of_Z 0) t2), (fleb t2 (of_Z 1)); simpl;
    split; try congruence; try tauto; intros [? [? ?]]; discriminate.
Qed.

(** On a hit the position is [a + v2 * t2] and the two parameters are the
    quotients; the normal is built by the (angle, z) constructor. *)
Lemma raySeg_hit_values (o d a b hp hn : Vec3 F) (t u : F) :
  raySeg o d a b = Some (hp, hn, t, u) ->
  let v2 := Vec3_sub b a in
  hp = mkVec3 (fadd (vx a) (fmul (vx v2) u)) (fadd (vy a) (fmul (vy v2) u)) (of_Z 0) /\
  hn = mkVec3 (cosf (fneg (vy v2))) (sinf (fneg (vy v2))) (vx v2) /\
  snd (fst (raySeg_quotients o d a b)) = t /\
  snd (raySeg_quotients o d a b) = u.
Proof.
  unfold raySeg.
  destruct (raySeg_quotients o d a b) as [[d23 t1] t2].
  destruct (fleb (of_Z 0) t1 && fleb (of_Z 0) t2 && fleb t2 (of_Z 1));
    [| discriminate].
  intros Heq. injection Heq as <- <- <- <-. simpl. auto.
Qed.
End RaySegFacts.

(** ** rayLines selects a nearest hit *)

Section RayLinesFacts.
Context {F : Type} {SF : Scalar F} {SS : StdSort}.
Hypothesis Hsort : sort_contract SS.
Hypothesis Hord : order_ok SF.

Lemma collect_hits_sound (ls : list (Line F)) (o d : Vec3 F) :
  forall k i h, In (i, h) (collect_hits k ls o d) ->
  exists ln, In ln ls /\ hit_of o d ln h.
Proof.
  induction ls as [| ln ls IH]; simpl; intros k i h Hin; [contradiction |].
  fold (world_a ln) in Hin. fold (world_b ln) in Hin.
  destruct (raySeg o d (world_a ln) (world_b ln)) as [[[[hp hn] t] u] |] eqn:Hr.
  - destruct Hin as [Heq | Hin].
    + injection Heq as _ <-. exists ln. split; [now left |].
      split; [reflexivity | exact Hr].
    + destruct (IH _ _ _ Hin) as [ln' [Hl Hh]]. exists ln'. split; [now right | exact Hh].
  - destruct (IH _ _ _ Hin) as [ln' [Hl Hh]]. exists ln'. split; [now right | exact Hh].
Qed.

Lemma collect_hits_complete (ls : list (Line F)) (o d : Vec3 F) (ln : Line F) (t : F) :
  In ln ls -> hits_at o d ln t ->
  forall k, exists i h, In (i, h) (collect_hits k ls o d) /\ hi_distance h = t.
Proof.
  intros Hin [hp [hn [u Hr]]].
  induction ls as [| ln0 ls IH]; simpl; intros k; [contradiction |].
  fold (world_a ln0). fold (world_b ln0).
  destruct Hin as [-> | Hin].
  - rewrite Hr. eexists; eexists; split; [left; reflexivity | reflexivity].
  - destruct (IH Hin (k + 1)%Z) as [i [h [Hh Hd]]].
    destruct (raySeg o d (world_a ln0) (world_b ln0)) as [[[[? ?] ?] ?] |];
      exists i, h; split; auto. now right.
Qed.

Lemma hit_of_nonneg (o d : Vec3 F) (ln : Line F) (h : HitInfo F) :
  hit_of o d ln h -> fleb (of_Z 0) (hi_distance h) = true.
Proof.
  intros [_ Hr]. now apply raySeg_some in Hr.
Qed.

Lemma by_distance_ok (ls : list (Line F)) (o d : Vec3 F) (k : Z) :
  comparator_ok by_distance (collect_hits k ls o d).
Proof.
  destruct Hord as [Hasym [Hneg _]].
  assert (forall e, In e (collect_hits k ls o d) ->
            fleb (of_Z 0) (hi_distance (snd e)) = true) as Hnn.
  { intros [i h] Hin. destruct (collect_hits_sound _ _ _ _ _ _ Hin) as [ln [_ Hh]].
    simpl. eapply hit_of_nonneg; eauto. }
  split.
  - intros a b Ha Hb. unfold by_distance. apply Hasym; auto.
  - intros a b c Ha Hb Hc. unfold by_distance. apply Hneg; auto.
Qed.

Lemma rayLines_none (ls : list (Line F)) (o d : Vec3 F) :
  (forall ln, In ln ls -> raySeg o d (world_a ln) (world_b ln) = None) ->
  rayLines ls o d = None.
Proof.
  intros Hnone. unfold rayLines.
  assert (collect_hits 0 ls o d = []) as ->.
  { destruct (collect_hits 0 ls o d) as [| [i h] md] eqn:Hmd; [reflexivity |].
    assert (In (i, h) (collect_hits 0 ls o d)) as Hin by (rewrite Hmd; now left).
    destruct (collect_hits_sound _ _ _ _ _ _ Hin) as [ln [Hl [_ Hr]]].
    rewrite (Hnone ln Hl) in Hr. discriminate. }
  destruct (Hsort by_distance (@nil (Z * HitInfo F))) as [Hperm _].
  apply Permutation_sym, Permutation_nil in Hperm. now rewrite Hperm.
Qed.

Lemma rayLines_some (ls : list (Line F)) (o d : Vec3 F) (ln0 : Line F) (t0 : F) :
  In ln0 ls -> hits_at o d ln0 t0 ->
  exists info ln,
    rayLines ls o d = Some info /\ In ln ls /\ hit_of o d ln info /\
    forall ln' t', In ln' ls -> hits_at o d ln' t' ->
      fltb t' (hi_distance info) = false /\ fleb (hi_distance info) t' = true.
Proof.
  intros Hin0 Hhit0. unfold rayLines.
  destruct (Hsort by_distance (collect_hits 0 ls o d)) as [Hperm Hsorted].
  specialize (Hsorted (by_distance_ok ls o d 0)).
  destruct (std_sort by_distance (collect_hits 0 ls o d)) as [| [i info] rest] eqn:Hs.
  - destruct (collect_hits_complete _ Hin0 Hhit0 0) as [j [h [Hh _]]].
    apply (Permutation_in _ (Permutation_sym Hperm)) in Hh. contradiction.
  - assert (In (i, info) (collect_hits 0 ls o d)) as Hfirst
      by (apply (Permutation_in _ Hperm); now left).
    destruct (collect_hits_sound _ _ _ _ _ _ Hfirst) as [ln [Hl Hof]].
    exists info, ln. split; [reflexivity |]. split; [exact Hl |].
    split; [exact Hof |].
    intros ln' t' Hin' Hhit'.
    destruct (collect_hits_complete _ Hin' Hhit' 0) as [j [h [Hh Hd]]].
    pose proof (by_distance_ok ls o d 0) as [Hasym _].
    assert (fltb t' (hi_distance info) = false) as Hlt.
    { apply (Permutation_in _ (Permutation_sym Hperm)) in Hh.
      inversion Hsorted as [| ? ? _ Hall]; subst.
      destruct Hh as [Heq | Hh].
      - injection Heq as _ <-.
        destruct (fltb (hi_distance info) (hi_distance info)) eqn:Hc; [| reflexivity].
        specialize (Hasym (i, info) (i, info) Hfirst Hfirst Hc).
        unfold by_distance in Hasym. simpl in Hasym. congruence.
      - rewrite Forall_forall in Hall. apply (Hall _ Hh). }
    split; [exact Hlt |].
    destruct Hord as [_ [_ Htot]].
    apply Htot; auto.
    + eapply hit_of_nonneg; eauto.
    + destruct Hhit' as [hp [hn [u Hr]]]. now apply raySeg_some in Hr.
Qed.
End RayLinesFacts.

(** ** A column without a hit issues no put *)

Section ColumnFacts.
Context {F : Type} {SF : Scalar F} {SS : StdSort}.
Hypothesis Hsort : sort_contract SS.

Lemma shade_row_x (g : RayCastGame F) (cv : GameCanvas) (info : HitInfo F)
    (h2 d ceil floor wh fog : F) (x y : Z) :
  put_x (shade_row g cv info h2 d ceil floor wh fog x y) = x.
Proof.
  unfold shade_row.
  destruct (fleb (of_Z y) ceil); [reflexivity |].
  destruct (fltb ceil (of_Z y) && fleb (of_Z y) floor); reflexivity.
Qed.

Lemma draw_column_x (g : RayCastGame F) (cv : GameCanvas) (x : Z) (p : Put F) :
  In p (draw_column g cv x) -> put_x p = x.
Proof.
  unfold draw_column.
  destruct (rayLines _ _ _) as [info |]; [| contradiction].
  destruct (fltb (hi_distance info) maxDepth); [| contradiction].
  rewrite in_map_iff. intros [y [<- _]]. apply shade_row_x.
Qed.

Lemma draw_column_no_hit (g : RayCastGame F) (cv : GameCanvas) (x : Z) :
  (forall ln, In ln (lines g) ->
     raySeg (position (v_object (viewer g))) (column_ray g cv x)
            (world_a ln) (world_b ln) = None) ->
  draw_column g cv x = [].
Proof.
  intros Hnone. unfold draw_column.
  now rewrite (rayLines_none Hsort _ _ _ Hnone).
Qed.

Lemma onDraw_no_put (g0 g : RayCastGame F) (cv : GameCanvas) (puts : list (Put F))
    (x : Z) :
  onDraw g0 cv = Some (g, puts) ->
  draw_column g cv x = [] ->
  forall p, In p puts -> put_x p <> x.
Proof.
  unfold onDraw. destruct (create_lines (models g0)) as [ls |]; [| discriminate].
  intros Heq Hcol p Hp Hx. injection Heq as <- <-.
  apply in_flat_map in Hp. destruct Hp as [x' [_ Hp]].
  pose proof (draw_column_x _ _ _ _ Hp) as Hx'.
  rewrite Hx in Hx'. subst x'. rewrite Hcol in Hp. contradiction.
Qed.
End ColumnFacts.

(** C1.  For every ray and every line list: if some line yields a valid
    [raySeg] intersection, [rayLines] returns a hit of one of the lines whose
    distance no valid intersection undercuts (so of two walls crossed by the
    ray, one strictly nearer than the other, the farther is never the one
    selected); if no line yields a valid intersection, [rayLines] returns
    nothing, the column issues no [put], and no [put] of the whole frame
    lands in that column.  [std::sort] is any function meeting its
    contract. *)
Theorem rayLines_selects_nearest_hit
    (F : Type) (SF : Scalar F) (SS : StdSort)
    (Hsort : sort_contract SS) (Hord : order_ok SF)
    (ls : list (Line F)) (o d : Vec3 F) :
  ((exists ln t, In ln ls /\ hits_at o d ln t) ->
   exists info ln,
     rayLines ls o d = Some info /\ In ln ls /\ hit_of o d ln info /\
     (forall ln' t', In ln' ls -> hits_at o d ln' t' ->
        fltb t' (hi_distance info) = false /\
        fleb (hi_distance info) t' = true) /\
     (forall ln1 t1 ln2 t2, In ln1 ls -> In ln2 ls ->
        hits_at o d ln1 t1 -> hits_at o d ln2 t2 ->
        fltb t1 t2 = true -> hi_distance info <> t2)) /\
  ((forall ln, In ln ls -> raySeg o d (world_a ln) (world_b ln) = None) ->
   rayLines ls o d = None /\
   (forall g cv x,
      lines g = ls -> position (v_object (viewer g)) = o ->
      column_ray g cv x = d ->
      draw_column g cv x = [] /\
      (forall g0 puts, onDraw g0 cv = Some (g, puts) ->
         forall p, In p puts -> put_x p <> x))).
Proof.
  split.
  - intros [ln0 [t0 [Hin0 Hhit0]]].
    destruct (rayLines_some Hsort Hord _ Hin0 Hhit0)
      as [info [ln [Hray [Hl [Hof Hmin]]]]].
    exists info, ln. repeat (split; [assumption |]).
    intros ln1 t1 ln2 t2 H1 H2 Hh1 Hh2 Hlt Heq.
    destruct (Hmin ln1 t1 H1 Hh1) as [Hnot _]. congruence.
  - intros Hnone. split; [now apply rayLines_none |].
    intros g cv x Hl Ho Hd.
    assert (draw_column g cv x = []) as Hcol.
    { apply (draw_column_no_hit Hsort). rewrite Hl, Ho, Hd. exact Hnone. }
    split; [exact Hcol |].
    intros g0 puts Hdraw. eapply onDraw_no_put; eassumption.
Qed.

(** In the room of [onSetup] enclosed in a larger room, the eastward ray from
    (8, 8) crosses the wall at 48 and the parallel wall at 56; the hit that
    [rayLines] returns is the one at distance 40, on the nearer wall. *)
Lemma rayLines_selects_nearest_hit_in_rooms :
  exists info,
    @rayLines _ b32 insertion_StdSort Scene.two_rooms_lines Scene.eye Scene.east
      = Some info /\
    hi_distance info = Scene.num 40 /\
    hi_line info = Scene.near_wall /\
    @hits_at _ b32 Scene.eye Scene.east Scene.far_wall (Scene.num 48).
Proof.
  destruct (@rayLines_selects_nearest_hit _ b32 insertion_StdSort
              insertion_sort_contract b32_order_ok
              Scene.two_rooms_lines Scene.eye Scene.east) as [Hhit _].
  destruct Hhit as [info [ln [Hray _]]].
  { exists Scene.near_wall, (Scene.num 40). split.
    - vm_compute. tauto.
    - do 3 eexists. vm_compute. reflexivity. }
  exists info. split; [exact Hray |].
  vm_compute in Hray. injection Hray as <-.
  split; [reflexivity |]. split; [reflexivity |].
  do 3 eexists. vm_compute. reflexivity.
Defined.

(** ** raySeg: the normal *)

(** C2 (the code at the failing input).  A ray from the origin straight up
    meets the segment (-1, 2)-(1, 2) at its midpoint: distance 2, parameter
    0.5, position (0, 2).  The normal returned is (cos(-0), sin(-0), 2) =
    (1, -0, 2), because [Vec3(-v2.y, v2.x)] is the (angle, z) constructor; it
    is not perp(v2) = (-0, 2, 0). *)
Theorem raySeg_normal_is_not_perp :
  let o := Scene.vec 0 0 in
  let d := Scene.vec 0 1 in
  let a := Scene.vec (-1) 2 in
  let b := Scene.vec 1 2 in
  @raySeg _ b32 o d a b =
    Some (Scene.vec 0 2,
          mkVec3 (Scene.num 1) (S754_zero true) (Scene.num 2),
          Scene.num 2, Scene.dec 1 2) /\
  @perp _ b32 (@Vec3_sub _ b32 b a) = mkVec3 (S754_zero true) (Scene.num 2) (Scene.num 0) /\
  mkVec3 (Scene.num 1) (S754_zero true) (Scene.num 2)
    <> @perp _ b32 (@Vec3_sub _ b32 b a).
Proof.
  vm_compute. repeat split. discriminate.
Qed.

(** Whatever the scalar type and libm, the third component of the normal is
    [v2.x], where perp(v2) has 0. *)
Lemma raySeg_normal_z {F : Type} {SF : Scalar F} (o d a b hp hn : Vec3 F) (t u : F) :
  raySeg o d a b = Some (hp, hn, t, u) ->
  vz hn = vx (Vec3_sub b a) /\ vz (perp (Vec3_sub b a)) = of_Z 0.
Proof.
  intros Hr. apply raySeg_hit_values in Hr. destruct Hr as [_ [-> _]].
  split; reflexivity.
Qed.

(** The rest of what a hit carries is as the formulas say.  In exact
    arithmetic, with a non-zero denominator, the hit position [a + v2 * t2]
    is the point [o + d * t1] of the ray; for a ray in the plane with a unit
    direction, [t1] is the Euclidean distance from the origin to the hit. *)
Lemma raySeg_hit_on_ray_R (o d a b hp hn : Vec3 R) (t u : R) :
  @ray_denominator _ Rscalar o d a b <> 0%R ->
  @raySeg _ Rscalar o d a b = Some (hp, hn, t, u) ->
  vx hp = (vx o + vx d * t)%R /\ vy hp = (vy o + vy d * t)%R /\
  (vz o = 0%R -> (vx d * vx d + vy d * vy d = 1)%R ->
   @Vec3_length _ Rscalar (@Vec3_sub _ Rscalar hp o) = t).
Proof.
  intros Hd Hr.
  pose proof (raySeg_some _ _ _ _ Hr) as [Ht _].
  apply raySeg_hit_values in Hr. destruct Hr as [-> [_ [<- <-]]].
  unfold ray_denominator in Hd.
  unfold raySeg_quotients, Vec3_dot, Vec3_cross, Vec3_sub in *.
  simpl in *.
  assert (forall x y : R, Rleb x y = true -> (x <= y)%R) as Hle.
  { intros x y. unfold Rleb. destruct (Rle_dec x y); [auto | discriminate]. }
  apply Hle in Ht.
  set (den := ((vx b - vx a) * - vy d + (vy b - vy a) * vx d
               + (vz b - vz a) * 0)%R) in *.
  set (num1 := ((vx b - vx a) * (vy o - vy a) - (vy b - vy a) * (vx o - vx a))%R) in *.
  assert (vx a + (vx b - vx a) *
            (((vx o - vx a) * - vy d + (vy o - vy a) * vx d + (vz o - vz a) * 0) / den)
          = vx o + vx d * (num1 / den))%R as Hx
    by (unfold num1, den in *; field; intros Hc; apply Hd; lra).
  assert (vy a + (vy b - vy a) *
            (((vx o - vx a) * - vy d + (vy o - vy a) * vx d + (vz o - vz a) * 0) / den)
          = vy o + vy d * (num1 / den))%R as Hy
    by (unfold num1, den in *; field; intros Hc; apply Hd; lra).
  split; [exact Hx |]. split; [exact Hy |].
  intros Hz Hunit. unfold Vec3_length, Vec3_dot. simpl.
  rewrite Hx, Hy, Hz.
  match goal with
  | |- sqrt ?e = _ =>
      replace e with ((num1 / den) * (num1 / den)
                      * (vx d * vx d + vy d * vy d))%R by ring
  end.
  rewrite Hunit, Rmult_1_r. now apply sqrt_square.
Qed.

(** ** raySeg: the parallel case *)

Lemma b32_eq_zero (x : spec_float) :
  SFeqb x B32.zero = true -> exists s, x = S754_zero s.
Proof.
  destruct x as [s | s | | s m e]; unfold SFeqb; simpl;
    try discriminate; try (destruct s; discriminate).
  intros _. now exists s.
Qed.

Lemma b32_div_by_zero (x : spec_float) (s : bool) :
  @fdiv _ b32 x (S754_zero s) = S754_nan \/
  exists s', @fdiv _ b32 x (S754_zero s) = S754_infinity s'.
Proof.
  destruct x; simpl; eauto.
Qed.

Lemma b32_not_in_unit_interval (t : spec_float) :
  t = S754_nan \/ (exists s, t = S754_infinity s) ->
  @fleb _ b32 (@of_Z _ b32 0) t && @fleb _ b32 t (@of_Z _ b32 1) = false.
Proof.
  intros [-> | [[|] ->]]; reflexivity.
Qed.

(** C3 (as amended).  In binary32, when the denominator [dot(v2, v3)] is
    zero, the quotient [t2] is an infinity or a NaN and [raySeg] answers
    no-hit. *)
Theorem raySeg_parallel_no_hit (o d a b : Vec3 spec_float) :
  SFeqb (@ray_denominator _ b32 o d a b) B32.zero = true ->
  @raySeg _ b32 o d a b = None /\
  (@ray_t2 _ b32 o d a b = S754_nan \/
   exists s, @ray_t2 _ b32 o d a b = S754_infinity s).
Proof.
  unfold ray_denominator, ray_t2, raySeg, raySeg_quotients. cbn [fst snd].
  intros Hz. apply b32_eq_zero in Hz. destruct Hz as [s Hz]. rewrite Hz.
  split; [| apply b32_div_by_zero].
  rewrite <- andb_assoc.
  rewrite (b32_not_in_unit_interval (b32_div_by_zero _ s)), andb_false_r.
  reflexivity.
Qed.

Lemma raySeg_parallel_no_hit_collinear :
  SFeqb (@ray_denominator _ b32 (Scene.vec 0 0) (Scene.vec 1 0)
           (Scene.vec 2 0) (Scene.vec 3 0)) B32.zero = true /\
  @raySeg _ b32 (Scene.vec 0 0) (Scene.vec 1 0) (Scene.vec 2 0) (Scene.vec 3 0)
    = None.
Proof.
  split; [reflexivity |].
  exact (proj1 (raySeg_parallel_no_hit (Scene.vec 0 0) (Scene.vec 1 0)
                  (Scene.vec 2 0) (Scene.vec 3 0) eq_refl)).
Defined.

(** At that input the division is carried out: both quotients are NaN. *)
Example raySeg_quotients_collinear :
  @raySeg_quotients _ b32 (Scene.vec 0 0) (Scene.vec 1 0)
     (Scene.vec 2 0) (Scene.vec 3 0)
  = (S754_zero false, S754_nan, S754_nan).
Proof. reflexivity. Qed.

(** C3 (as stated, refuted).  The no-hit answer is not the work of a guard:
    with a division that returns 0 on a zero denominator, the same code
    reports a hit for a ray running along the line of the segment. *)
Lemma raySeg_has_no_guard : ~ guards_zero_denominator.
Proof.
  intros Hguard.
  specialize (Hguard B32.div_zero_to_zero (Scene.vec 0 0) (Scene.vec 1 0)
                (Scene.vec 2 0) (Scene.vec 3 0) eq_refl).
  vm_compute in Hguard. discriminate.
Qed.

(** ** Texture sampling *)

(** C4 (the code at the failing input).  On the 2 x 1 black/white texture,
    sampling at u = 0.99 gives 0.02 grey, while sampling at u = -0.01 gives
    2^32 in every channel when the conversion to [u32] keeps the low 32 bits,
    and a negative grey when it saturates: [floor(u)] is -1, its conversion
    to [u32] is not -1, and the fractional weight [u - x] is taken against
    the converted value. *)
Theorem sample_negative_u_does_not_wrap :
  let at_0_99 := @sample _ b32 Scene.checker (Scene.dec 99 100) (Scene.num 0) in
  let at_m0_01 := @sample _ b32 Scene.checker (Scene.dec (-1) 100) (Scene.num 0) in
  let sat_0_99 := @sample _ b32_sat Scene.checker (Scene.dec 99 100) (Scene.num 0) in
  let sat_m0_01 := @sample _ b32_sat Scene.checker (Scene.dec (-1) 100) (Scene.num 0) in
  vx at_0_99 = S754_finite false 10737408 (-29) /\
  vx at_m0_01 = S754_finite false 8388608 9 /\
  at_m0_01 <> at_0_99 /\
  sat_0_99 = at_0_99 /\
  vx sat_m0_01 = S754_finite true 10737418 (-29) /\
  sat_m0_01 <> sat_0_99.
Proof.
  vm_compute. repeat split; discriminate.
Qed.

(** For coordinates that are not negative the wrap-around does work. *)
Example sample_positive_u_wraps :
  @sample _ b32 Scene.checker (Scene.dec 5 4) (Scene.num 0)
  = @sample _ b32 Scene.checker (Scene.dec 1 4) (Scene.num 0).
Proof. reflexivity. Qed.







(** ** Collision *)

Section CollisionFacts.
Context {F : Type} {SF : Scalar F}.

Lemma circleLines_cons (ln : Line F) (ls : list (Line F)) (p : Vec3 F) (r : F) :
  circleLines (ln :: ls) p r =
  let cp := closestPoint (world_a ln) (world_b ln) p in
  if fleb (of_Z 0) (snd cp) && fleb (snd cp) (of_Z 1) then
    if fltb (Vec3_length (Vec3_sub (fst cp) p)) r then true
    else circleLines ls p r
  else circleLines ls p r.
Proof. reflexivity. Qed.

Lemma circleLines_true_iff (ls : list (Line F)) (p : Vec3 F) (r : F) :
  circleLines ls p r = true <-> exists ln, In ln ls /\ blocks ln p r.
Proof.
  induction ls as [| ln ls IH].
  - simpl. split; [discriminate | intros [ln [[] _]]].
  - rewrite circleLines_cons.
    assert (blocks ln p r \/ circleLines ls p r = true <->
            exists ln', In ln' (ln :: ls) /\ blocks ln' p r) as Hex.
    { split.
      - intros [Hb | Hr].
        + exists ln. split; [now left | exact Hb].
        + apply IH in Hr. destruct Hr as [ln' [Hin Hb]].
          exists ln'. split; [now right | exact Hb].
      - intros [ln' [[<- | Hin] Hb]]; [now left |].
        right. apply IH. now exists ln'. }
    rewrite <- Hex. unfold blocks.
    set (cp := closestPoint (world_a ln) (world_b ln) p). cbv zeta.
    destruct (fleb (of_Z 0) (snd cp)), (fleb (snd cp) (of_Z 1)),
             (fltb (Vec3_length (Vec3_sub (fst cp) p)) r); simpl;
      intuition congruence.
Qed.

End CollisionFacts.

(** ** Movement *)

(** C7 (the code at the failing input).  The viewer stands at x = 7.94f in
    the corridor, free of the wall at 8.8; one step forward ends at
    8.006667, within 0.8 of the wall, so the step is taken back by
    subtracting the same delta.  The sum was rounded in the binade above 8,
    and the difference is 7.9400005, one unit in the last place above the
    starting x. *)
Theorem onUpdate_rollback_leaves_residue :
  let g := @onUpdate _ b32 Scene.key_up Scene.dt Scene.walker in
  @circleLines _ b32 (lines Scene.walker) Scene.walker_position (Scene.dec 8 10) = false /\
  @circleLines _ b32 (lines Scene.walker)
     (@Vec3_add _ b32 Scene.walker_position Scene.step_forward) (Scene.dec 8 10) = true /\
  vx Scene.walker_position = S754_finite false 16651387 (-21) /\
  position (v_object (viewer g))
    = mkVec3 (S754_finite false 16651388 (-21)) (Scene.num 24) (Scene.num 0) /\
  position (v_object (viewer g)) <> position (v_object (viewer Scene.walker)).
Proof.
  vm_compute. repeat split. discriminate.
Qed.

(** In exact arithmetic the same code restores the position. *)
Lemma update_position_rollback_R (k : Keys) (dt rot : R) (ls : list (Line R))
    (p : Vec3 R) :
  held_up k = true ->
  @circleLines _ Rscalar ls
    (@Vec3_add _ Rscalar p
       (@Vec3_scale _ Rscalar
          (@Vec3_scale _ Rscalar (@Vec3_angle _ Rscalar rot 0%R) dt) 4%R))
    (@lit _ Rscalar 8 10) = true ->
  @update_position _ Rscalar k dt rot ls p = p.
Proof.
  intros Hup Hcol. unfold update_position. rewrite Hup. simpl of_Z.
  rewrite Hcol. destruct p as [x y z].
  unfold Vec3_sub, Vec3_add, Vec3_scale, Vec3_angle; simpl.
  f_equal; ring.
Qed.

(** ** Comparisons of the exact instance *)

Local Open Scope R_scope.

Lemma Rleb_true_iff (x y : R) : Rleb x y = true <-> x <= y.
Proof.
  unfold Rleb. destruct (Rle_dec x y); split; auto; discriminate.
Qed.

Lemma Rltb_true_iff (x y : R) : Rltb x y = true <-> x < y.
Proof.
  unfold Rltb. destruct (Rlt_dec x y); split; auto; discriminate.
Qed.

Lemma Rltb_false_iff (x y : R) : Rltb x y = false <-> y <= x.
Proof.
  unfold Rltb. destruct (Rlt_dec x y); split; auto; try discriminate; lra.
Qed.

(** ** Wrap-around of non-negative coordinates *)

Lemma Int_part_IZR_plus (r : R) (z : Z) : Int_part (r + IZR z) = (Int_part r + z)%Z.
Proof.
  symmetry. apply Int_part_spec.
  destruct (base_Int_part r) as [H1 H2].
  rewrite plus_IZR. lra.
Qed.

Lemma Int_part_IZR (z : Z) : Int_part (IZR z) = z.
Proof.
  symmetry. apply Int_part_spec. lra.
Qed.

Lemma Int_part_nonneg (r : R) : 0 <= r -> (0 <= Int_part r)%Z.
Proof.
  intros Hr. destruct (base_Int_part r) as [H1 H2].
  apply le_IZR. apply Rnot_lt_le. intros Hneg.
  assert (IZR (Int_part r) <= -1) as Hle.
  { apply IZR_le. apply lt_IZR in Hneg. lia. }
  lra.
Qed.

Lemma R_to_u32_IZR (z : Z) : (0 <= z < u32_mod)%Z -> R_to_u32 (IZR z) = z.
Proof.
  intros Hz. unfold R_to_u32.
  destruct (Rle_dec 0 (IZR z)) as [_ | Hn].
  - rewrite Int_part_IZR. now apply Z.mod_small.
  - exfalso. apply Hn. apply IZR_le. lia.
Qed.

Section ExactSample.
Local Existing Instance Rscalar.

Lemma get_shift_x (tex : Texture) (x y : Z) :
  (0 < m_width tex)%Z ->
  get tex (x + m_width tex) y = get tex x y.
Proof.
  intros Hw. unfold get.
  destruct (orb (m_width tex =? 0)%Z (m_height tex =? 0)%Z); [reflexivity |].
  cbv zeta.
  replace ((x + m_width tex) mod m_width tex)%Z with (x mod m_width tex)%Z; [reflexivity |].
  rewrite <- (Z.mul_1_l (m_width tex)) at 2.
  now rewrite Z.mod_add by lia.
Qed.

(** In exact arithmetic, for a coordinate that is not negative and stays in
    the range of [u32], one more turn of [u] samples the same colour. *)
Lemma sample_wraps_u_R (tex : Texture) (u v : R) :
  (0 < m_width tex)%Z -> 0 <= u ->
  u * IZR (m_width tex) + IZR (m_width tex) + 1 < IZR u32_mod ->
  sample tex (u + 1) v = sample tex u v.
Proof.
  intros Hw Hu Hrange. unfold sample. simpl.
  set (w := m_width tex) in *.
  assert (0 < IZR w) as HwR by (apply IZR_lt; exact Hw).
  assert (0 <= u * IZR w) as Huw by (apply Rmult_le_pos; lra).
  set (x := Int_part (u * IZR w)).
  assert (0 <= x)%Z as Hx0 by (apply Int_part_nonneg; exact Huw).
  assert (IZR x <= u * IZR w) as Hxle by (destruct (base_Int_part (u * IZR w)); assumption).
  assert (x + w + 1 < u32_mod)%Z as Hxw.
  { apply lt_IZR. rewrite !plus_IZR. lra. }
  replace ((u + 1) * IZR w) with (u * IZR w + IZR w) by ring.
  rewrite Int_part_IZR_plus. fold x.
  rewrite (@R_to_u32_IZR (x + w)), (@R_to_u32_IZR x) by lia.
  assert (u32_add (x + w) 1 = (u32_add x 1 + w)%Z) as Hadd.
  { unfold u32_add. rewrite !Z.mod_small by lia. lia. }
  rewrite Hadd. unfold w at 2 4 6 8. rewrite !get_shift_x by exact Hw.
  fold w. rewrite plus_IZR.
  replace (u * IZR w + IZR w - (IZR x + IZR w)) with (u * IZR w - IZR x) by ring.
  reflexivity.
Qed.
End ExactSample.

(** ** Bounds on the tangent *)

Lemma sin_lb_poly (a : R) :
  sin_lb a = a - a^3/6 + a^5/120 - a^7/5040.
Proof.
  unfold sin_lb, sin_approx, sin_term. cbn [sum_f_R0 Nat.mul Nat.add].
  replace (INR (fact 1)) with 1 by (rewrite INR_IZR_INZ; reflexivity).
  replace (INR (fact 3)) with 6 by (rewrite INR_IZR_INZ; reflexivity).
  replace (INR (fact 5)) with 120 by (rewrite INR_IZR_INZ; reflexivity).
  replace (INR (fact 7)) with 5040 by (rewrite INR_IZR_INZ; reflexivity).
  field.
Qed.

Lemma cos_ub_poly (a : R) :
  cos_ub a = 1 - a^2/2 + a^4/24 - a^6/720 + a^8/40320.
Proof.
  unfold cos_ub, cos_approx, cos_term. cbn [sum_f_R0 Nat.mul Nat.add].
  replace (INR (fact 0)) with 1 by (rewrite INR_IZR_INZ; reflexivity).
  replace (INR (fact 2)) with 2 by (rewrite INR_IZR_INZ; reflexivity).
  replace (INR (fact 4)) with 24 by (rewrite INR_IZR_INZ; reflexivity).
  replace (INR (fact 6)) with 720 by (rewrite INR_IZR_INZ; reflexivity).
  replace (INR (fact 8)) with 40320 by (rewrite INR_IZR_INZ; reflexivity).
  field.
Qed.

Lemma tan_wide_fov : 6 / 5 < tan (120 * (174533 / 10000000) / 2).
Proof.
  replace (120 * (174533 / 10000000) / 2) with (1047198 / 1000000) by field.
  pose proof PI2_3_2 as Hpi.
  assert (0 < cos (1047198 / 1000000)) as Hc by (apply cos_gt_0; lra).
  destruct (SIN (1047198 / 1000000)) as [Hs _]; [lra | lra |].
  destruct (COS (1047198 / 1000000)) as [_ Hu]; [lra | lra |].
  rewrite sin_lb_poly in Hs. rewrite cos_ub_poly in Hu.
  unfold tan. apply Rmult_lt_reg_r with (cos (1047198 / 1000000)); [exact Hc |].
  replace (sin (1047198 / 1000000) / cos (1047198 / 1000000) * cos (1047198 / 1000000))
    with (sin (1047198 / 1000000)) by (field; lra).
  lra.
Qed.

Lemma tan_default_fov : tan (60 * (174533 / 10000000) / 2) <= 1.
Proof.
  pose proof PI2_3_2 as Hpi.
  rewrite <- tan_PI4. left. apply tan_increasing; lra.
Qed.

(** ** The wall fog factor *)

Section ExactFog.
Local Existing Instance Rscalar.

(** C5 (as amended).  In exact arithmetic, for an accepted hit
    (0 <= distance, the test of [raySeg], and distance < maxDepth, the
    cutoff) seen under a field of view with tan(fov/2) <= 1, the wall fog
    factor 1 - d/maxDepth, d = distance * tan(fov/2), is not negative. *)
Theorem wall_fog_nonneg_narrow_fov (fov distance : R) :
  fleb (of_Z 0) distance = true ->
  fltb distance maxDepth = true ->
  tanf (fdiv fov (of_Z 2)) <= 1 ->
  0 <= wall_fog (tanf (fdiv fov (of_Z 2))) distance.
Proof.
  unfold wall_fog, wall_d, maxDepth. simpl.
  rewrite Rleb_true_iff, Rltb_true_iff. intros H0 Hmax Htan.
  assert (distance * tan (fov / 2) <= distance * 1)
    by (apply Rmult_le_compat_l; assumption).
  lra.
Qed.

(** At the field of view a [Viewer] is born with, [rad(60)], and distance 30
    the fog factor is not negative. *)
Lemma wall_fog_nonneg_default_fov :
  0 <= wall_fog
         (tanf (fdiv (rad 60%R) (of_Z 2))) 30.
Proof.
  apply (@wall_fog_nonneg_narrow_fov (rad 60%R) 30).
  - apply Rleb_true_iff. simpl. lra.
  - apply Rltb_true_iff. unfold maxDepth. simpl. lra.
  - exact tan_default_fov.
Defined.

(** C5 (as stated, refuted).  With the x key held at the upper clamp the
    field of view stays [rad(120)]; a hit at distance 50 passes the cutoff,
    its perspective distance is above 60 and its fog factor is negative. *)
Lemma wall_fog_negative_wide_fov :
  let fov := update_fov (mkKeys true false false false false false)
               (1 / 60) (rad 120%R) in
  fov = rad 120 /\
  fleb (rad 20) fov = true /\
  fleb fov (rad 120%R) = true /\
  fleb (of_Z 0) 50 = true /\
  fltb 50 maxDepth = true /\
  wall_fog (tanf (fdiv fov (of_Z 2))) 50 < 0.
Proof.
  assert (update_fov (mkKeys true false false false false false)
            (1 / 60) (rad 120%R) = rad 120) as Hfov.
  { unfold update_fov. simpl held_x. cbv iota.
    replace (fleb (rad (of_Z 120)) (fadd (rad 120%R) (1 / 60)))
      with true; [reflexivity |].
    symmetry. apply Rleb_true_iff. unfold rad, lit. simpl. lra. }
  cbv zeta. rewrite Hfov.
  split; [reflexivity |].
  split; [apply Rleb_true_iff; unfold rad, lit; simpl; lra |].
  split; [apply Rleb_true_iff; unfold rad, lit; simpl; lra |].
  split; [apply Rleb_true_iff; simpl; lra |].
  split; [apply Rltb_true_iff; unfold maxDepth; simpl; lra |].
  pose proof tan_wide_fov as Htan.
  unfold wall_fog, wall_d, maxDepth, rad, lit. simpl. lra.
Qed.
End ExactFog.

(** ** The rectangle generator *)

Section ExactBlock.
Local Existing Instance Rscalar.





(** The same count in binary32 for the room of [onSetup]: the U spans of
    its four segments add up to exactly 48. *)
Example Block_6_6_coverage :
  fold_right (fun l acc => B32.add (B32.sub (lu1 l) (lu0 l)) acc)
             B32.zero Scene.room_lines
  = Scene.num 48 /\ length Scene.room_lines = 4%nat.
Proof. split; reflexivity. Qed.
End ExactBlock.


(** * Part III: the canvas and the frame loop *)

Local Open Scope Z_scope.

(** ** Pixel writes *)

Lemma u32_small (z : Z) : 0 <= z < u32_mod -> z mod u32_mod = z.
Proof. intros Hz. now apply Z.mod_small. Qed.

Lemma pixel_index_bound (cv : GameCanvas) (x y : Z) :
  addressable cv -> on_canvas cv x y ->
  0 <= x + y * width cv /\ 3 * (x + y * width cv) + 2 < u32_mod.
Proof.
  unfold addressable, on_canvas. intros (Hw & Hh & Hlim) [Hx Hy].
  assert (x + y * width cv < width cv * height cv) by nia.
  nia.
Qed.

Lemma pixel_index_u32 (cv : GameCanvas) (x y : Z) :
  addressable cv -> on_canvas cv x y ->
  u32_mul (u32_add x (u32_mul y (width cv))) 3 = 3 * (x + y * width cv).
Proof.
  intros Ha Hc. destruct (pixel_index_bound Ha Hc) as [H0 H1].
  unfold addressable, on_canvas in *.
  unfold u32_mul, u32_add.
  assert (0 <= y * width cv) by nia.
  rewrite (u32_small (z := y * width cv)) by nia.
  rewrite (u32_small (z := x + y * width cv)) by nia.
  rewrite u32_small by nia. ring.
Qed.

Lemma pixel_index_inj (cv : GameCanvas) (x y x' y' k k' : Z) :
  on_canvas cv x y -> on_canvas cv x' y' ->
  0 <= k < 3 -> 0 <= k' < 3 ->
  3 * (x + y * width cv) + k = 3 * (x' + y' * width cv) + k' ->
  x = x' /\ y = y' /\ k = k'.
Proof.
  unfold on_canvas. intros [Hx Hy] [Hx' Hy'] Hk Hk' Heq.
  assert (x + y * width cv = x' + y' * width cv) as Hp by lia.
  assert (y = y') by nia.
  subst y'. lia.
Qed.

Lemma poke3_read (buf : Pixels) (i r g b j : Z) :
  0 <= i -> i + 2 < u32_mod ->
  poke3 buf i r g b j =
    if j =? i + 2 then b else if j =? i + 1 then g else if j =? i then r
    else buf j.
Proof.
  intros H0 H2. unfold poke3, poke, u32_add.
  rewrite !u32_small by lia. now rewrite Z.add_0_r.
Qed.

Section PutFacts.
Context {F : Type} {SF : Scalar F}.

Lemma put_outside (cv : GameCanvas) (buf : Pixels) (x y : Z) (c : Vec3 F) :
  ~ on_canvas cv x y -> GameCanvas_put cv buf x y c = buf.
Proof.
  unfold on_canvas, GameCanvas_put. intros Hout.
  destruct (x <? 0) eqn:H1; [reflexivity |].
  destruct (width cv <=? x) eqn:H2; [reflexivity |].
  destruct (y <? 0) eqn:H3; [reflexivity |].
  destruct (height cv <=? y) eqn:H4; [reflexivity |].
  exfalso. apply Hout. lia.
Qed.

Lemma put_inside (cv : GameCanvas) (buf : Pixels) (x y : Z) (c : Vec3 F) :
  addressable cv -> on_canvas cv x y ->
  GameCanvas_put cv buf x y c =
    poke3 buf (3 * (x + y * width cv)) (Col (vx c)) (Col (vy c)) (Col (vz c)).
Proof.
  intros Ha Hc. unfold GameCanvas_put.
  rewrite (pixel_index_u32 Ha Hc).
  unfold on_canvas in Hc.
  replace (x <? 0) with false by (symmetry; apply Z.ltb_ge; lia).
  replace (width cv <=? x) with false by (symmetry; apply Z.leb_gt; lia).
  replace (y <? 0) with false by (symmetry; apply Z.ltb_ge; lia).
  replace (height cv <=? y) with false by (symmetry; apply Z.leb_gt; lia).
  reflexivity.
Qed.

Lemma put_same (cv : GameCanvas) (buf : Pixels) (x y : Z) (c : Vec3 F) :
  addressable cv -> on_canvas cv x y ->
  pixel_at cv (GameCanvas_put cv buf x y c) x y = Col3 c.
Proof.
  intros Ha Hc. rewrite (put_inside _ _ Ha Hc).
  destruct (pixel_index_bound Ha Hc) as [H0 H1].
  unfold pixel_at, Col3. cbv zeta.
  rewrite !poke3_read by lia.
  set (i := 3 * (x + y * width cv)).
  replace (i =? i + 2) with false by (symmetry; apply Z.eqb_neq; lia).
  replace (i =? i + 1) with false by (symmetry; apply Z.eqb_neq; lia).
  replace (i + 1 =? i + 2) with false by (symmetry; apply Z.eqb_neq; lia).
  now rewrite !Z.eqb_refl.
Qed.

Lemma put_other (cv : GameCanvas) (buf : Pixels) (x y x' y' : Z) (c : Vec3 F) :
  addressable cv -> on_canvas cv x' y' -> (x, y) <> (x', y') ->
  pixel_at cv (GameCanvas_put cv buf x y c) x' y' = pixel_at cv buf x' y'.
Proof.
  intros Ha Hc' Hne.
  assert (on_canvas cv x y \/ ~ on_canvas cv x y) as [Hc | Hc]
    by (unfold on_canvas; lia).
  2: now rewrite put_outside.
  rewrite (put_inside _ _ Ha Hc).
  destruct (pixel_index_bound Ha Hc) as [H0 H1].
  unfold pixel_at. cbv zeta. rewrite !poke3_read by lia.
  assert (forall k k', 0 <= k < 3 -> 0 <= k' < 3 ->
            3 * (x' + y' * width cv) + k' <> 3 * (x + y * width cv) + k) as Hd.
  { intros k k' Hk Hk' Heq.
    destruct (pixel_index_inj (cv := cv) Hc' Hc Hk' Hk Heq) as (-> & -> & _).
    now apply Hne. }
  pose proof (Hd 0 0) as D00. pose proof (Hd 1 0) as D10. pose proof (Hd 2 0) as D20.
  pose proof (Hd 0 1) as D01. pose proof (Hd 1 1) as D11. pose proof (Hd 2 1) as D21.
  pose proof (Hd 0 2) as D02. pose proof (Hd 1 2) as D12. pose proof (Hd 2 2) as D22.
  repeat match goal with
         | |- context [?a =? ?b] =>
             replace (a =? b) with false by (symmetry; apply Z.eqb_neq; lia)
         end.
  reflexivity.
Qed.
End PutFacts.

(** X1.  On a canvas whose buffer a [u32] can address, [put] at a pixel of
    the canvas stores the clamped colour in that pixel and leaves every other
    pixel as it was; [put] at a position off the canvas changes nothing. *)
Theorem put_writes_one_pixel
    (F : Type) (SF : Scalar F) (cv : GameCanvas) (buf : Pixels)
    (x y : Z) (c : Vec3 F) (Ha : addressable cv) :
  (on_canvas cv x y -> pixel_at cv (GameCanvas_put cv buf x y c) x y = Col3 c) /\
  (forall x' y', on_canvas cv x' y' -> (x, y) <> (x', y') ->
     pixel_at cv (GameCanvas_put cv buf x y c) x' y' = pixel_at cv buf x' y') /\
  (~ on_canvas cv x y -> GameCanvas_put cv buf x y c = buf).
Proof.
  split; [| split].
  - intros Hc. now apply put_same.
  - intros x' y' Hc' Hne. now apply put_other.
  - apply put_outside.
Qed.

Lemma small_canvas_addressable : addressable (mkCanvas 4 3).
Proof. unfold addressable, u32_mod. simpl. lia. Qed.

Lemma demo_canvas_addressable : addressable Demo.canvas.
Proof. exact small_canvas_addressable. Qed.

(** A put at (1, 2) of a 4 x 3 canvas in binary32: full red becomes the
    bytes (255, 0, 0) at the pixel, and the pixel (2, 2) keeps its bytes. *)
Lemma put_writes_one_pixel_example :
  pixel_at (mkCanvas 4 3)
    (@GameCanvas_put _ b32 (mkCanvas 4 3) (fun _ => 7) 1 2
       (mkVec3 (Scene.num 1) (Scene.num 0) (Scene.num 0))) 1 2 = (255, 0, 0) /\
  pixel_at (mkCanvas 4 3)
    (@GameCanvas_put _ b32 (mkCanvas 4 3) (fun _ => 7) 1 2
       (mkVec3 (Scene.num 1) (Scene.num 0) (Scene.num 0))) 2 2 = (7, 7, 7).
Proof.
  destruct (@put_writes_one_pixel _ b32 (mkCanvas 4 3) (fun _ => 7) 1 2
              (mkVec3 (Scene.num 1) (Scene.num 0) (Scene.num 0))
              small_canvas_addressable) as (Hsame & Hother & _).
  split.
  - rewrite Hsame; [reflexivity | unfold on_canvas; simpl; lia].
  - rewrite Hother; [reflexivity | unfold on_canvas; simpl; lia | discriminate].
Defined.

(** ** clear *)

Section ClearFacts.
Context {F : Type} {SF : Scalar F}.

Lemma clear_fold_read (c : Vec3 F) (i0 k : Z) (l : list Z) :
  0 <= k < 3 -> 0 <= i0 ->
  (forall i, In i l -> 0 <= i /\ 3 * i + 2 < u32_mod) ->
  forall buf : Pixels,
    In i0 l \/
    buf (3 * i0 + k) = (if k =? 2 then Col (vz c) else if k =? 1 then Col (vy c)
                        else Col (vx c)) ->
    fold_left (fun b i => poke3 b (u32_mul i 3) (Col (vx c)) (Col (vy c)) (Col (vz c)))
              l buf (3 * i0 + k)
    = (if k =? 2 then Col (vz c) else if k =? 1 then Col (vy c) else Col (vx c)).
Proof.
  intros Hk Hi0. induction l as [| i l IH]; intros Hl buf Hor; simpl.
  - destruct Hor as [[] | Hb]. exact Hb.
  - destruct (Hl i (or_introl eq_refl)) as [Hi Hi2].
    apply IH; [intros j Hj; apply Hl; now right |].
    assert (u32_mul i 3 = 3 * i) as ->
      by (unfold u32_mul; rewrite u32_small by lia; ring).
    destruct (Z.eq_dec i0 i) as [-> | Hne].
    + right. rewrite poke3_read by lia.
      assert (k = 0 \/ k = 1 \/ k = 2) as [-> | [-> | ->]] by lia;
        repeat match goal with
               | |- context [?a =? ?b] =>
                   first [ replace (a =? b) with true
                             by (symmetry; apply Z.eqb_eq; lia)
                         | replace (a =? b) with false
                             by (symmetry; apply Z.eqb_neq; lia) ]
               end; reflexivity.
    + destruct Hor as [[Heq | Hin] | Hb]; [congruence | now left |].
      right. rewrite poke3_read by lia.
      replace (3 * i0 + k =? 3 * i + 2) with false by (symmetry; apply Z.eqb_neq; lia).
      replace (3 * i0 + k =? 3 * i + 1) with false by (symmetry; apply Z.eqb_neq; lia).
      replace (3 * i0 + k =? 3 * i) with false by (symmetry; apply Z.eqb_neq; lia).
      exact Hb.
Qed.

Lemma in_upto (n i : Z) : In i (upto n) <-> 0 <= i < n.
Proof.
  unfold upto. rewrite in_map_iff. split.
  - intros [k [<- Hk]]. apply in_seq in Hk. lia.
  - intros Hi. exists (Z.to_nat i). split; [lia |]. apply in_seq. lia.
Qed.

Lemma clear_fold_frame (c : Vec3 F) (n j : Z) (l : list Z) :
  (j < 0 \/ 3 * n <= j) ->
  (forall i, In i l -> 0 <= i < n /\ 3 * i + 2 < u32_mod) ->
  forall buf : Pixels,
    fold_left (fun b i => poke3 b (u32_mul i 3) (Col (vx c)) (Col (vy c)) (Col (vz c)))
              l buf j
    = buf j.
Proof.
  intros Hj. induction l as [| i l IH]; intros Hl buf; simpl; [reflexivity |].
  destruct (Hl i (or_introl eq_refl)) as [Hi Hi2].
  rewrite IH by (intros i' Hi'; apply Hl; now right).
  assert (u32_mul i 3 = 3 * i) as ->
    by (unfold u32_mul; rewrite u32_small by lia; ring).
  rewrite poke3_read by lia.
  replace (j =? 3 * i + 2) with false by (symmetry; apply Z.eqb_neq; lia).
  replace (j =? 3 * i + 1) with false by (symmetry; apply Z.eqb_neq; lia).
  replace (j =? 3 * i) with false by (symmetry; apply Z.eqb_neq; lia).
  reflexivity.
Qed.

Lemma clear_pixel (cv : GameCanvas) (buf : Pixels) (c : Vec3 F) (x y : Z) :
  addressable cv -> on_canvas cv x y ->
  pixel_at cv (GameCanvas_clear cv buf c) x y = Col3 c.
Proof.
  intros Ha Hc. destruct (pixel_index_bound Ha Hc) as [H0 H1].
  pose proof Ha as (Hw & Hh & Hlim). pose proof Hc as [Hx Hy].
  assert (x + y * width cv < width cv * height cv) as Hlt by nia.
  assert (u32_mul (width cv) (height cv) = width cv * height cv) as Hmul.
  { unfold u32_mul. apply u32_small. nia. }
  unfold GameCanvas_clear, pixel_at, Col3. cbv zeta. rewrite Hmul.
  assert (forall i, In i (upto (width cv * height cv)) ->
            0 <= i /\ 3 * i + 2 < u32_mod) as Hl
    by (intros i Hi; apply in_upto in Hi; lia).
  assert (In (x + y * width cv) (upto (width cv * height cv))) as Hin
    by (apply in_upto; lia).
  pose proof (@clear_fold_read c (x + y * width cv) 0 (upto (width cv * height cv))
                ltac:(lia) H0 Hl buf (or_introl Hin)) as R0.
  pose proof (@clear_fold_read c (x + y * width cv) 1 (upto (width cv * height cv))
                ltac:(lia) H0 Hl buf (or_introl Hin)) as R1.
  pose proof (@clear_fold_read c (x + y * width cv) 2 (upto (width cv * height cv))
                ltac:(lia) H0 Hl buf (or_introl Hin)) as R2.
  change (0 =? 2) with false in R0. change (0 =? 1) with false in R0.
  change (1 =? 2) with false in R1. change (1 =? 1) with true in R1.
  change (2 =? 2) with true in R2. cbv iota in R0, R1, R2.
  rewrite Z.add_0_r in R0.
  now rewrite R0, R1, R2.
Qed.
End ClearFacts.

(** X2.  On a canvas whose buffer a [u32] can address, after [clear] every
    pixel of the canvas holds the clamped clear colour, whatever the buffer
    held before, and no byte outside the [width * height * 3] bytes of the
    canvas is written. *)
Theorem clear_fills_canvas
    (F : Type) (SF : Scalar F) (cv : GameCanvas) (buf : Pixels) (c : Vec3 F)
    (Ha : addressable cv) :
  (forall x y, on_canvas cv x y ->
     pixel_at cv (GameCanvas_clear cv buf c) x y = Col3 c) /\
  (forall j, j < 0 \/ 3 * (width cv * height cv) <= j ->
     GameCanvas_clear cv buf c j = buf j).
Proof.
  split.
  - intros x y Hc. now apply clear_pixel.
  - intros j Hj. pose proof Ha as (Hw & Hh & Hlim).
    unfold GameCanvas_clear.
    assert (0 < u32_mod) as Hpos by (unfold u32_mod; lia).
    assert (u32_mul (width cv) (height cv) = width cv * height cv) as ->.
    { unfold u32_mul. apply u32_small. nia. }
    apply clear_fold_frame with (n := width cv * height cv); [exact Hj |].
    intros i Hi. apply in_upto in Hi. lia.
Qed.

(** The default clear of a 4 x 3 canvas in binary32 leaves (0, 0, 0) at
    pixel (3, 2). *)
Lemma clear_fills_canvas_example :
  pixel_at (mkCanvas 4 3)
    (@GameCanvas_clear _ b32 (mkCanvas 4 3) (fun _ => 7)
       (mkVec3 (Scene.num 0) (Scene.num 0) (Scene.num 0))) 3 2 = (0, 0, 0).
Proof.
  rewrite (proj1 (@clear_fills_canvas _ b32 (mkCanvas 4 3) (fun _ => 7)
                    (mkVec3 (Scene.num 0) (Scene.num 0) (Scene.num 0))
                    small_canvas_addressable) 3 2).
  - reflexivity.
  - unfold on_canvas; simpl; lia.
Defined.

(** ** The buffer after the column loop *)

Section PaintFacts.
Context {F : Type} {SF : Scalar F} {SS : StdSort}.

Lemma puts_elsewhere (cv : GameCanvas) (x y : Z) (puts : list (Put F)) :
  addressable cv -> on_canvas cv x y ->
  (forall p, In p puts -> put_pos p <> (x, y)) ->
  forall buf : Pixels,
    pixel_at cv
      (fold_left (fun b p => GameCanvas_put cv b (put_x p) (put_y p) (put_rgb p))
                 puts buf) x y
    = pixel_at cv buf x y.
Proof.
  intros Ha Hc. induction puts as [| q puts IH]; intros Hne buf; simpl;
    [reflexivity |].
  rewrite IH by (intros p Hp; apply Hne; now right).
  apply put_other; auto. apply (Hne q). now left.
Qed.

Lemma puts_last_wins (cv : GameCanvas) (puts : list (Put F)) (p : Put F) :
  addressable cv -> on_canvas cv (put_x p) (put_y p) ->
  NoDup (map put_pos puts) -> In p puts ->
  forall buf : Pixels,
    pixel_at cv
      (fold_left (fun b p => GameCanvas_put cv b (put_x p) (put_y p) (put_rgb p))
                 puts buf) (put_x p) (put_y p)
    = Col3 (put_rgb p).
Proof.
  intros Ha Hc. induction puts as [| q puts IH]; intros Hnd Hin buf;
    [contradiction |].
  simpl. inversion Hnd as [| ? ? Hq Hnd']; subst.
  destruct Hin as [-> | Hin].
  - rewrite puts_elsewhere; auto.
    + now apply put_same.
    + intros r Hr Heq. apply Hq. apply in_map_iff. exists r. now split.
  - now apply IH.
Qed.

Lemma draw_column_positions (g : RayCastGame F) (cv : GameCanvas) (x : Z) :
  map put_pos (draw_column g cv x) = [] \/
  map put_pos (draw_column g cv x) = map (fun y => (x, y)) (upto (height cv)).
Proof.
  unfold draw_column.
  destruct (rayLines _ _ _) as [info |]; [| now left].
  destruct (fltb (hi_distance info) maxDepth); [| now left].
  right. rewrite map_map. apply map_ext. intros y.
  unfold put_pos. rewrite shade_row_x. f_equal.
  unfold shade_row.
  destruct (fleb (of_Z y) _); [reflexivity |].
  destruct (fltb _ (of_Z y) && fleb (of_Z y) _); reflexivity.
Qed.

Lemma upto_NoDup (n : Z) : NoDup (upto n).
Proof.
  unfold upto. apply Finite.Injective_map_NoDup; [| apply seq_NoDup].
  intros a b Hab. lia.
Qed.

Lemma columns_NoDup (g : RayCastGame F) (cv : GameCanvas) (xs : list Z) :
  NoDup xs -> NoDup (map put_pos (flat_map (draw_column g cv) xs)).
Proof.
  induction xs as [| x xs IH]; intros Hnd; simpl; [constructor |].
  inversion Hnd as [| ? ? Hx Hnd']; subst.
  rewrite map_app. apply NoDup_app; [| now apply IH |].
  - destruct (draw_column_positions g cv x) as [-> | ->]; [constructor |].
    apply Finite.Injective_map_NoDup; [| apply upto_NoDup].
    intros a b Hab. congruence.
  - intros pos H1 H2.
    apply in_map_iff in H1. destruct H1 as [p [<- Hp]].
    apply in_map_iff in H2. destruct H2 as [q [Hq Hin]].
    apply in_flat_map in Hin. destruct Hin as [x' [Hx' Hq']].
    apply draw_column_x in Hp. apply draw_column_x in Hq'.
    unfold put_pos in Hq. injection Hq as Hqx _. congruence.
Qed.

Lemma draw_column_on_canvas (g : RayCastGame F) (cv : GameCanvas) (x : Z)
    (p : Put F) :
  0 <= x < width cv -> In p (draw_column g cv x) ->
  on_canvas cv (put_x p) (put_y p).
Proof.
  intros Hx Hp.
  assert (In (put_pos p) (map put_pos (draw_column g cv x))) as Hpos
    by now apply in_map.
  destruct (draw_column_positions g cv x) as [Hd | Hd]; rewrite Hd in Hpos;
    [contradiction |].
  apply in_map_iff in Hpos. destruct Hpos as [y [Heq Hy]].
  apply in_upto in Hy. unfold put_pos in Heq. injection Heq as <- <-.
  unfold on_canvas. lia.
Qed.

Lemma onDraw_puts (g0 g : RayCastGame F) (cv : GameCanvas) (puts : list (Put F)) :
  onDraw g0 cv = Some (g, puts) ->
  NoDup (map put_pos puts) /\
  forall p, In p puts -> on_canvas cv (put_x p) (put_y p).
Proof.
  unfold onDraw. destruct (create_lines (models g0)) as [ls |]; [| discriminate].
  intros Heq. injection Heq as <- <-. split.
  - apply columns_NoDup, upto_NoDup.
  - intros p Hp. apply in_flat_map in Hp. destruct Hp as [x [Hx Hp]].
    apply in_upto in Hx. eapply draw_column_on_canvas; eauto.
Qed.
End PaintFacts.

(** X3.  The [put] calls that the column loop of one [onDraw] issues all
    address pixels of the canvas and no two address the same pixel.  So in
    the buffer as the column loop leaves it, before the two text lines are
    drawn over it, every pixel that received a [put] shows the clamped
    colour of that [put], and every other pixel of the canvas shows the
    clear colour (0, 0, 0). *)
Theorem onDraw_paints_each_pixel_once
    (F : Type) (SF : Scalar F) (SS : StdSort)
    (g0 g : RayCastGame F) (cv : GameCanvas) (puts : list (Put F))
    (buf : Pixels)
    (Ha : addressable cv) (Hdraw : onDraw g0 cv = Some (g, puts)) :
  NoDup (map put_pos puts) /\
  (forall p, In p puts ->
     on_canvas cv (put_x p) (put_y p) /\
     pixel_at cv (paint_columns cv buf puts) (put_x p) (put_y p) = Col3 (put_rgb p)) /\
  (forall x y, on_canvas cv x y ->
     (forall p, In p puts -> put_pos p <> (x, y)) ->
     pixel_at cv (paint_columns cv buf puts) x y
     = Col3 (mkVec3 (of_Z 0) (of_Z 0) (of_Z 0))).
Proof.
  destruct (onDraw_puts _ _ Hdraw) as [Hnd Hon].
  split; [exact Hnd |]. split.
  - intros p Hp. split; [now apply Hon |].
    unfold paint_columns. apply puts_last_wins; auto.
  - intros x y Hc Hne. unfold paint_columns.
    rewrite puts_elsewhere by auto. now apply clear_pixel.
Qed.

(** The 6 x 6 room on a 4 x 3 canvas, seen from (8, 8) with a field of view
    of 1 radian: the column loop issues 12 [put] calls at pairwise distinct
    pixels; the one for pixel (0, 1) carries a finite colour, and the buffer
    holds its clamped bytes there when the loop ends. *)
Lemma onDraw_paints_each_pixel_once_in_room :
  exists g puts p,
    @onDraw _ b32 insertion_StdSort (Demo.textured_game [Scene.room])
      Demo.canvas = Some (g, puts) /\
    length puts = 12%nat /\
    NoDup (map put_pos puts) /\
    nth_error puts 1 = Some p /\
    put_pos p = (0, 1) /\
    B32.is_finite (vx (put_rgb p)) = true /\
    pixel_at Demo.canvas (@paint_columns _ b32 Demo.canvas Demo.grey puts) 0 1
    = @Col3 _ b32 (put_rgb p).
Proof.
  set (g := @set_lines _ (Demo.textured_game [Scene.room]) Scene.room_lines).
  set (puts := flat_map (@draw_column _ b32 insertion_StdSort g Demo.canvas)
                        (upto (width Demo.canvas))).
  assert (@onDraw _ b32 insertion_StdSort (Demo.textured_game [Scene.room])
            Demo.canvas = Some (g, puts)) as Hdraw by reflexivity.
  assert (length puts = 12%nat) as Hlen by (vm_compute; reflexivity).
  assert (option_map (fun p => (put_pos p, B32.is_finite (vx (put_rgb p))))
            (nth_error puts 1) = Some ((0, 1), true)) as Hnth
    by (vm_compute; reflexivity).
  destruct (nth_error puts 1) as [p |] eqn:Hp; [| discriminate Hnth].
  cbn [option_map] in Hnth. unfold put_pos in Hnth.
  injection Hnth as Hx Hy Hfin.
  destruct (@onDraw_paints_each_pixel_once _ b32 insertion_StdSort _ _ _ _
              Demo.grey demo_canvas_addressable Hdraw) as (Hnd & Hput & _).
  destruct (Hput p (nth_error_In _ _ Hp)) as [_ Hpix].
  rewrite Hx, Hy in Hpix.
  assert (put_pos p = (0, 1)) as Hpos by (unfold put_pos; now rewrite Hx, Hy).
  exists g, puts, p. repeat split; assumption.
Defined.

(** ** rect *)

Lemma i32_span_nonneg (start len : Z) :
  0 <= start -> 0 <= len -> start + len < u32_mod ->
  i32_span start len = map (fun k => start + k) (upto len).
Proof.
  intros Hs Hl Hb. unfold i32_span, u32_add.
  rewrite !u32_small by lia.
  destruct (start <? start + len) eqn:Hlt.
  - now replace (start + len - start) with len by lia.
  - apply Z.ltb_ge in Hlt. now replace len with 0 by lia.
Qed.

Lemma i32_span_negative (start len : Z) (r : Z) :
  - 2 ^ 31 <= start < 0 -> 0 <= len < u32_mod ->
  In r (i32_span start len) -> r < 0.
Proof.
  intros Hs Hl. unfold i32_span, u32_add, u32_mod in *.
  assert (start mod 2 ^ 32 = start + 2 ^ 32) as ->.
  { symmetry. apply Z.mod_unique with (q := -1); lia. }
  destruct (Z_lt_le_dec (start + len) 0) as [Hneg | Hpos].
  - assert ((start + len) mod 2 ^ 32 = start + len + 2 ^ 32) as ->.
    { symmetry. apply Z.mod_unique with (q := -1); lia. }
    destruct (_ <? _); [| contradiction].
    rewrite in_map_iff. intros [k [<- Hk]]. apply in_upto in Hk. lia.
  - rewrite (Z.mod_small (start + len)) by lia.
    replace (start + 2 ^ 32 <? start + len) with false
      by (symmetry; apply Z.ltb_ge; lia).
    contradiction.
Qed.

Section RectFacts.
Context {F : Type} {SF : Scalar F}.

Lemma puts_one_colour (cv : GameCanvas) (c : Vec3 F) (x' y' : Z)
    (ps : list (Z * Z)) :
  addressable cv -> on_canvas cv x' y' ->
  forall buf : Pixels,
    pixel_at cv
      (fold_left (fun b p => GameCanvas_put cv b (fst p) (snd p) c) ps buf) x' y'
    = pixel_at cv
        (if in_dec pos_eq_dec (x', y') ps
         then GameCanvas_put cv buf x' y' c else buf) x' y'.
Proof.
  intros Ha Hc. induction ps as [| [px py] ps IH]; intros buf; [reflexivity |].
  cbn [fold_left fst snd]. rewrite IH.
  destruct (in_dec _ (x', y') ps) as [Hin | Hnin];
    destruct (in_dec _ (x', y') ((px, py) :: ps)) as [Hin' | Hnin'].
  - now rewrite !put_same.
  - exfalso. apply Hnin'. now right.
  - destruct Hin' as [Heq | Hin']; [| contradiction].
    injection Heq as -> ->. reflexivity.
  - rewrite put_other; auto. intros Heq. apply Hnin'. now left.
Qed.

Lemma puts_all_outside (cv : GameCanvas) (c : Vec3 F) (ps : list (Z * Z)) :
  (forall p, In p ps -> ~ on_canvas cv (fst p) (snd p)) ->
  forall buf : Pixels,
    fold_left (fun b p => GameCanvas_put cv b (fst p) (snd p) c) ps buf = buf.
Proof.
  induction ps as [| p ps IH]; intros Hout buf; [reflexivity |].
  simpl. rewrite put_outside by (apply Hout; now left).
  apply IH. intros q Hq. apply Hout. now right.
Qed.

Lemma rect_as_puts (cv : GameCanvas) (c : Vec3 F) (xs ys : list Z) :
  forall buf : Pixels,
    fold_left (fun b ry => fold_left (fun b rx => GameCanvas_put cv b rx ry c) xs b)
              ys buf
    = fold_left (fun b p => GameCanvas_put cv b (fst p) (snd p) c)
                (flat_map (fun ry => map (fun rx => (rx, ry)) xs) ys) buf.
Proof.
  induction ys as [| ry ys IH]; intros buf; [reflexivity |].
  simpl. rewrite fold_left_app, <- IH. f_equal.
  generalize buf. clear. induction xs as [| rx xs IHx]; intros buf; [reflexivity |].
  simpl. apply IHx.
Qed.

Lemma in_rect_points (xs ys : list Z) (px py : Z) :
  In (px, py) (flat_map (fun ry => map (fun rx => (rx, ry)) xs) ys) <->
  In px xs /\ In py ys.
Proof.
  rewrite in_flat_map. split.
  - intros [ry [Hry Hin]]. apply in_map_iff in Hin.
    destruct Hin as [rx [Heq Hrx]]. injection Heq as <- <-. auto.
  - intros [Hx Hy]. exists py. split; [exact Hy |].
    apply in_map_iff. exists px. now split.
Qed.
End RectFacts.

(** X5.  [rect] with an origin that is not negative and a far corner below
    2^31 paints exactly the pixels of the rectangle that lie on the canvas:
    such a pixel gets the clamped colour, every other pixel of the canvas
    keeps its bytes. *)
Theorem rect_fills_rectangle
    (F : Type) (SF : Scalar F) (cv : GameCanvas) (buf : Pixels)
    (x y w h : Z) (c : Vec3 F) (x' y' : Z)
    (Ha : addressable cv) (Hc : on_canvas cv x' y')
    (Hx : 0 <= x) (Hy : 0 <= y) (Hw : 0 <= w) (Hh : 0 <= h)
    (Hxw : x + w < 2 ^ 31) (Hyh : y + h < 2 ^ 31) :
  (x <= x' < x + w -> y <= y' < y + h ->
   pixel_at cv (GameCanvas_rect cv buf x y w h c) x' y' = Col3 c) /\
  (~ (x <= x' < x + w /\ y <= y' < y + h) ->
   pixel_at cv (GameCanvas_rect cv buf x y w h c) x' y' = pixel_at cv buf x' y').
Proof.
  unfold GameCanvas_rect.
  assert (u32_mod = 2 ^ 32) as Hmod by reflexivity.
  rewrite !i32_span_nonneg by lia.
  rewrite rect_as_puts, puts_one_colour by auto.
  assert (forall a n v, 0 <= n ->
            (In v (map (fun k => a + k) (upto n)) <-> a <= v < a + n)) as Hspan.
  { intros a n v Hn. rewrite in_map_iff. split.
    - intros [k [<- Hk]]. apply in_upto in Hk. lia.
    - intros Hv. exists (v - a). split; [lia |]. apply in_upto. lia. }
  split.
  - intros Hin1 Hin2.
    destruct (in_dec _ _ _) as [_ | Hnin]; [now apply put_same |].
    exfalso. apply Hnin. apply in_rect_points. rewrite !Hspan by lia. lia.
  - intros Hout.
    destruct (in_dec _ _ _) as [Hin | _]; [| reflexivity].
    exfalso. apply Hout. apply in_rect_points in Hin.
    rewrite !Hspan in Hin by lia. lia.
Qed.

(** A 2 x 1 red rectangle at (1, 1) of the 4 x 3 canvas: (2, 1) is red,
    (3, 1) is untouched. *)
Lemma rect_fills_rectangle_example :
  pixel_at Demo.canvas
    (@GameCanvas_rect _ b32 Demo.canvas Demo.grey 1 1 2 1 Demo.red) 2 1
    = (255, 0, 0) /\
  pixel_at Demo.canvas
    (@GameCanvas_rect _ b32 Demo.canvas Demo.grey 1 1 2 1 Demo.red) 3 1
    = (7, 7, 7).
Proof.
  split.
  - rewrite (proj1 (@rect_fills_rectangle _ b32 Demo.canvas Demo.grey 1 1 2 1
                      Demo.red 2 1 demo_canvas_addressable
                      ltac:(unfold on_canvas; simpl; lia)
                      ltac:(lia) ltac:(lia) ltac:(lia) ltac:(lia)
                      ltac:(lia) ltac:(lia))); [reflexivity | lia | lia].
  - rewrite (proj2 (@rect_fills_rectangle _ b32 Demo.canvas Demo.grey 1 1 2 1
                      Demo.red 3 1 demo_canvas_addressable
                      ltac:(unfold on_canvas; simpl; lia)
                      ltac:(lia) ltac:(lia) ltac:(lia) ltac:(lia)
                      ltac:(lia) ltac:(lia))); [reflexivity | lia].
Defined.

(** X6.  [rect] does not clip a rectangle that starts left of or above the
    canvas: when x or y is negative the unsigned loop bounds make it draw
    nothing at all, and the buffer is returned as it was. *)
Theorem rect_negative_origin_draws_nothing
    (F : Type) (SF : Scalar F) (cv : GameCanvas) (buf : Pixels)
    (x y w h : Z) (c : Vec3 F)
    (Hx : - 2 ^ 31 <= x < 2 ^ 31) (Hy : - 2 ^ 31 <= y < 2 ^ 31)
    (Hw : 0 <= w < u32_mod) (Hh : 0 <= h < u32_mod)
    (Hneg : x < 0 \/ y < 0) :
  GameCanvas_rect cv buf x y w h c = buf.
Proof.
  unfold GameCanvas_rect. rewrite rect_as_puts.
  apply puts_all_outside. intros [px py] Hp.
  apply in_rect_points in Hp. destruct Hp as [Hpx Hpy].
  unfold on_canvas. simpl. destruct Hneg as [Hn | Hn].
  - pose proof (@i32_span_negative x w px ltac:(lia) Hw Hpx). lia.
  - pose proof (@i32_span_negative y h py ltac:(lia) Hh Hpy). lia.
Qed.

(** A 3 x 3 rectangle at (-1, 0) covers the pixels (0, 0) and (1, 0) of the
    canvas, yet [rect] leaves (0, 0) as it was. *)
Lemma rect_negative_origin_draws_nothing_example :
  pixel_at Demo.canvas
    (@GameCanvas_rect _ b32 Demo.canvas Demo.grey (-1) 0 3 3 Demo.red) 0 0
  = (7, 7, 7).
Proof.
  rewrite (@rect_negative_origin_draws_nothing _ b32 Demo.canvas Demo.grey
             (-1) 0 3 3 Demo.red);
    [reflexivity | lia | lia | unfold u32_mod; lia | unfold u32_mod; lia | lia].
Defined.

(** ** line *)

Section LineFacts.

(** The loop invariant: [rx] and [ry] steps remain along the two axes and the
    error term is [dx - D + D * rx - dx * ry]. *)
Lemma line_loop_reaches_end (x2 y2 dx D sx sy : Z) :
  0 <= dx -> 0 <= D -> (sx = 1 \/ sx = -1) -> (sy = 1 \/ sy = -1) ->
  forall (n fuel : nat) (x y err : Z) (l : list (Z * Z)),
    let rx := sx * (x2 - x) in
    let ry := sy * (y2 - y) in
    0 <= rx <= dx -> 0 <= ry <= D ->
    err = dx - D + D * rx - dx * ry ->
    rx + ry <= Z.of_nat n -> (n < fuel)%nat ->
    exists pts,
      line_loop (fun l x y => l ++ [(x, y)]) fuel x2 y2 dx (- D) sx sy x y err l
        = Some (l ++ (x, y) :: pts) /\
      last ((x, y) :: pts) (x2, y2) = (x2, y2) /\
      Z.of_nat (length pts) <= rx + ry /\
      forall p, In p pts ->
        0 <= sx * (x2 - fst p) <= rx /\ 0 <= sy * (y2 - snd p) <= ry.
Proof.
  intros Hdx HD Hsx Hsy.
  induction n as [| n IH]; intros fuel x y err l rx ry Hrx Hry Herr Hn Hfuel;
    (destruct fuel as [| fuel]; [lia |]); cbn [line_loop].
  - assert (x = x2 /\ y = y2) as [-> ->] by (subst rx ry; nia).
    rewrite !Z.eqb_refl. cbn [andb]. exists [].
    split; [reflexivity |]. split; [reflexivity |].
    split; [simpl; lia | intros p []].
  - destruct ((x =? x2) && (y =? y2)) eqn:Hend.
    + apply andb_true_iff in Hend. destruct Hend as [Ex Ey].
      apply Z.eqb_eq in Ex. apply Z.eqb_eq in Ey. subst x y.
      exists []. split; [reflexivity |]. split; [reflexivity |].
      split; [simpl; subst rx ry; nia | intros p []].
    + assert (0 < rx + ry) as Hpos.
      { apply andb_false_iff in Hend.
        destruct Hend as [E | E]; apply Z.eqb_neq in E; subst rx ry; nia. }
      assert (- D <= 2 * err -> 1 <= rx) as Hstepx by (subst err; nia).
      assert (2 * err <= dx -> 1 <= ry) as Hstepy by (subst err; nia).
      destruct (- D <=? 2 * err) eqn:Ex; destruct (2 * err <=? dx) eqn:Ey;
        try apply Z.leb_le in Ex; try apply Z.leb_le in Ey;
        try apply Z.leb_gt in Ex; try apply Z.leb_gt in Ey.
      * (* both steps *)
        destruct (IH fuel (x + sx) (y + sy) (err + - D + dx) (l ++ [(x, y)]))
          as [pts (Hrun & Hlast & Hlen & Hbox)];
          try (subst rx ry err; nia); try lia.
        exists ((x + sx, y + sy) :: pts). split; [| split; [| split]].
        -- rewrite Hrun, <- app_assoc. reflexivity.
        -- exact Hlast.
        -- cbn [length]. subst rx ry. nia.
        -- intros p [<- | Hp]; [cbn [fst snd]; subst rx ry; nia |].
           specialize (Hbox p Hp). subst rx ry. nia.
      * (* x only *)
        destruct (IH fuel (x + sx) y (err + - D) (l ++ [(x, y)]))
          as [pts (Hrun & Hlast & Hlen & Hbox)];
          try (subst rx ry err; nia); try lia.
        exists ((x + sx, y) :: pts). split; [| split; [| split]].
        -- rewrite Hrun, <- app_assoc. reflexivity.
        -- exact Hlast.
        -- cbn [length]. subst rx ry. nia.
        -- intros p [<- | Hp]; [cbn [fst snd]; subst rx ry; nia |].
           specialize (Hbox p Hp). subst rx ry. nia.
      * (* y only *)
        destruct (IH fuel x (y + sy) (err + dx) (l ++ [(x, y)]))
          as [pts (Hrun & Hlast & Hlen & Hbox)];
          try (subst rx ry err; nia); try lia.
        exists ((x, y + sy) :: pts). split; [| split; [| split]].
        -- rewrite Hrun, <- app_assoc. reflexivity.
        -- exact Hlast.
        -- cbn [length]. subst rx ry. nia.
        -- intros p [<- | Hp]; [cbn [fst snd]; subst rx ry; nia |].
           specialize (Hbox p Hp). subst rx ry. nia.
      * (* one of the two tests always holds *)
        lia.
Qed.
End LineFacts.

Lemma line_loop_visit {A : Type} (visit : A -> Z -> Z -> A)
    (x2 y2 dx dy sx sy : Z) (fuel : nat) :
  forall (x y err : Z) (acc : A) (l : list (Z * Z)),
    match line_loop (fun l x y => l ++ [(x, y)]) fuel x2 y2 dx dy sx sy x y err l with
    | Some l' =>
        exists pts, l' = l ++ pts /\
          line_loop visit fuel x2 y2 dx dy sx sy x y err acc
          = Some (fold_left (fun a p => visit a (fst p) (snd p)) pts acc)
    | None => line_loop visit fuel x2 y2 dx dy sx sy x y err acc = None
    end.
Proof.
  induction fuel as [| fuel IH]; intros x y err acc l; cbn [line_loop];
    [reflexivity |].
  destruct ((x =? x2) && (y =? y2)).
  - exists [(x, y)]. split; reflexivity.
  - destruct (dy <=? 2 * err); destruct (2 * err <=? dx);
      match goal with
      | |- context [line_loop _ fuel x2 y2 dx dy sx sy ?a ?b ?e (l ++ [(x, y)])] =>
          specialize (IH a b e (visit acc x y) (l ++ [(x, y)]));
          destruct (line_loop _ fuel x2 y2 dx dy sx sy a b e (l ++ [(x, y)]))
            as [l' |]; [| exact IH];
          destruct IH as [pts [-> Hrun]];
          exists ((x, y) :: pts); split;
          [now rewrite <- app_assoc | exact Hrun]
      end.
Qed.

Lemma line_points_reach_end (x1 y1 x2 y2 : Z) (fuel : nat) :
  Z.abs (x2 - x1) + Z.abs (y2 - y1) < Z.of_nat fuel ->
  exists pts,
    line_points fuel x1 y1 x2 y2 = Some ((x1, y1) :: pts) /\
    last ((x1, y1) :: pts) (x2, y2) = (x2, y2) /\
    Z.of_nat (length pts) <= Z.abs (x2 - x1) + Z.abs (y2 - y1) /\
    forall p, In p ((x1, y1) :: pts) ->
      Z.min x1 x2 <= fst p <= Z.max x1 x2 /\
      Z.min y1 y2 <= snd p <= Z.max y1 y2.
Proof.
  intros Hfuel. unfold line_points, line_from.
  set (sx := if x1 <? x2 then 1 else -1).
  set (sy := if y1 <? y2 then 1 else -1).
  assert (sx = 1 \/ sx = -1) as Hsx by (subst sx; destruct (x1 <? x2); auto).
  assert (sy = 1 \/ sy = -1) as Hsy by (subst sy; destruct (y1 <? y2); auto).
  assert (sx * (x2 - x1) = Z.abs (x2 - x1)) as Hrx.
  { subst sx. destruct (x1 <? x2) eqn:E;
      [apply Z.ltb_lt in E | apply Z.ltb_ge in E]; lia. }
  assert (sy * (y2 - y1) = Z.abs (y2 - y1)) as Hry.
  { subst sy. destruct (y1 <? y2) eqn:E;
      [apply Z.ltb_lt in E | apply Z.ltb_ge in E]; lia. }
  destruct (@line_loop_reaches_end x2 y2 (Z.abs (x2 - x1)) (Z.abs (y2 - y1)) sx sy
              ltac:(lia) ltac:(lia) Hsx Hsy
              (Z.to_nat (Z.abs (x2 - x1) + Z.abs (y2 - y1))) fuel x1 y1
              (Z.abs (x2 - x1) + - Z.abs (y2 - y1)) [])
    as [pts (Hrun & Hlast & Hlen & Hbox)];
    try (cbv zeta; rewrite ?Hrx, ?Hry; first [lia | ring]).
  exists pts. split; [exact Hrun |]. split; [exact Hlast |].
  split; [rewrite Hrx, Hry in Hlen; lia |].
  intros p [<- | Hp]; [cbn [fst snd]; lia |].
  specialize (Hbox p Hp). rewrite Hrx, Hry in Hbox.
  subst sx sy.
  destruct (x1 <? x2) eqn:Ex; [apply Z.ltb_lt in Ex | apply Z.ltb_ge in Ex];
    destruct (y1 <? y2) eqn:Ey; [apply Z.ltb_lt in Ey | apply Z.ltb_ge in Ey
                                | apply Z.ltb_lt in Ey | apply Z.ltb_ge in Ey];
    lia.
Qed.

(** X7.  With fuel above |x2 - x1| + |y2 - y1| the loop of [line] reaches its
    [break]: it visits (x1, y1) first and (x2, y2) last, at most
    |x2 - x1| + |y2 - y1| + 1 pixels in all, none outside the bounding box of
    the two ends.  On the canvas, both ends that lie on it get the clamped
    colour and every pixel outside that box keeps its bytes. *)
Theorem line_reaches_its_end
    (F : Type) (SF : Scalar F) (cv : GameCanvas) (buf : Pixels)
    (x1 y1 x2 y2 : Z) (c : Vec3 F) (fuel : nat)
    (Hfuel : Z.abs (x2 - x1) + Z.abs (y2 - y1) < Z.of_nat fuel) :
  exists pts buf',
    line_points fuel x1 y1 x2 y2 = Some ((x1, y1) :: pts) /\
    last ((x1, y1) :: pts) (x2, y2) = (x2, y2) /\
    Z.of_nat (length pts) <= Z.abs (x2 - x1) + Z.abs (y2 - y1) /\
    (forall p, In p ((x1, y1) :: pts) ->
       Z.min x1 x2 <= fst p <= Z.max x1 x2 /\
       Z.min y1 y2 <= snd p <= Z.max y1 y2) /\
    GameCanvas_line fuel cv buf x1 y1 x2 y2 c = Some buf' /\
    (addressable cv ->
     (on_canvas cv x1 y1 -> pixel_at cv buf' x1 y1 = Col3 c) /\
     (on_canvas cv x2 y2 -> pixel_at cv buf' x2 y2 = Col3 c) /\
     (forall x y, on_canvas cv x y ->
        ~ (Z.min x1 x2 <= x <= Z.max x1 x2 /\ Z.min y1 y2 <= y <= Z.max y1 y2) ->
        pixel_at cv buf' x y = pixel_at cv buf x y)).
Proof.
  destruct (@line_points_reach_end x1 y1 x2 y2 fuel Hfuel)
    as [pts (Hpts & Hlast & Hlen & Hbox)].
  pose proof (line_loop_visit (fun b x y => GameCanvas_put cv b x y c)
                x2 y2 (Z.abs (x2 - x1)) (- Z.abs (y2 - y1))
                (if x1 <? x2 then 1 else -1) (if y1 <? y2 then 1 else -1)
                fuel x1 y1 (Z.abs (x2 - x1) + - Z.abs (y2 - y1)) buf []) as Hvisit.
  unfold line_points, line_from in Hpts. rewrite Hpts in Hvisit.
  destruct Hvisit as [pts' [Heq Hrun]]. simpl in Heq. subst pts'.
  exists pts. eexists.
  split; [exact Hpts |]. split; [exact Hlast |]. split; [exact Hlen |].
  split; [exact Hbox |]. split; [exact Hrun |].
  intros Ha. split; [| split].
  - intros Hc. rewrite puts_one_colour by auto.
    destruct (in_dec _ _ _) as [_ | Hn]; [now apply put_same |].
    exfalso. apply Hn. now left.
  - intros Hc. rewrite puts_one_colour by auto.
    destruct (in_dec _ _ _) as [_ | Hn]; [now apply put_same |].
    exfalso. apply Hn. rewrite <- Hlast.
    clear. generalize (x1, y1) as a. induction pts as [| b pts IH]; intros a.
    + now left.
    + right. apply IH.
  - intros x y Hc Hout. rewrite puts_one_colour by auto.
    destruct (in_dec _ _ _) as [Hin | _]; [| reflexivity].
    exfalso. apply Hout. apply (Hbox (x, y) Hin).
Qed.

(** A line from (0, 0) to (3, 2) on the 4 x 3 canvas paints its far end. *)
Lemma line_reaches_its_end_example :
  exists buf',
    @GameCanvas_line _ b32 6 Demo.canvas Demo.grey 0 0 3 2 Demo.red = Some buf' /\
    pixel_at Demo.canvas buf' 3 2 = (255, 0, 0).
Proof.
  destruct (@line_reaches_its_end _ b32 Demo.canvas Demo.grey 0 0 3 2 Demo.red 6
              ltac:(simpl; lia))
    as (pts & buf' & _ & _ & _ & _ & Hrun & Hpix).
  exists buf'. split; [exact Hrun |].
  destruct (Hpix demo_canvas_addressable) as (_ & Hend & _).
  rewrite Hend; [reflexivity | unfold on_canvas; simpl; lia].
Defined.

(** ** The constructor *)

(** X8.  The constructor clamps [downScale] into [1, 6] before dividing, so a
    scale of 0 divides by 1 and a scale above 6 by 6; the logical size is the
    window size divided by that scale, rounded down, and its buffer is
    addressable whenever the window's would be. *)
Theorem GameCanvas_new_size (w h downScale : Z)
    (Hw : 0 <= w) (Hh : 0 <= h) :
  let ds := clamp_downScale downScale in
  let cv := GameCanvas_new w h downScale in
  1 <= ds <= 6 /\
  (1 <= downScale <= 6 -> ds = downScale) /\
  width cv * ds <= w < (width cv + 1) * ds /\
  height cv * ds <= h < (height cv + 1) * ds /\
  (w * h * 3 <= u32_mod -> addressable cv).
Proof.
  cbv zeta. unfold GameCanvas_new, clamp_downScale. cbn [width height].
  set (ds := Z.max (Z.min downScale 6) 1).
  assert (1 <= ds <= 6) as Hds by (subst ds; lia).
  pose proof (Z.div_mod w ds ltac:(lia)) as Dw.
  pose proof (Z.mod_pos_bound w ds ltac:(lia)) as Mw.
  pose proof (Z.div_mod h ds ltac:(lia)) as Dh.
  pose proof (Z.mod_pos_bound h ds ltac:(lia)) as Mh.
  assert (0 <= w / ds) by (apply Z.div_pos; lia).
  assert (0 <= h / ds) by (apply Z.div_pos; lia).
  split; [exact Hds |]. split; [subst ds; lia |].
  split; [nia |]. split; [nia |].
  intros Hlim. unfold addressable. cbn [width height].
  split; [lia |]. split; [lia |].
  assert (w / ds <= w) by nia. assert (h / ds <= h) by nia.
  assert (w / ds * (h / ds) <= w * h) by nia. lia.
Qed.

(** The canvas of [main], 640 x 480 at the default scale 2, is 320 x 240;
    at scale 0 it would be 640 x 480. *)
Lemma GameCanvas_new_size_main :
  GameCanvas_new 640 480 2 = mkCanvas 320 240 /\
  GameCanvas_new 640 480 0 = mkCanvas 640 480 /\
  addressable (GameCanvas_new 640 480 2).
Proof.
  pose proof (@GameCanvas_new_size 640 480 2 ltac:(lia) ltac:(lia)) as H.
  cbv zeta in H. destruct H as (_ & _ & _ & _ & Ha).
  repeat split; try reflexivity; apply Ha; unfold u32_mod; lia.
Defined.

(** ** The keyboard *)

Lemma fold_handle_event (key : Z) (events : list Event) :
  forall (running : bool) (kb : Keyboard),
    let st := fold_left handle_event events (running, kb) in
    fst st = running && negb (existsb is_quit events) /\
    pressed (snd st key) = pressed (kb key) || existsb (is_keydown key) events /\
    released (snd st key) = released (kb key) || existsb (is_keyup key) events /\
    held (snd st key) = match last_key_event key events with
                        | Some b => b
                        | None => held (kb key)
                        end.
Proof.
  induction events as [| e events IH]; intros running kb; cbn [fold_left].
  - simpl. rewrite andb_true_r, !orb_false_r. auto.
  - cbv zeta in IH |- *.
    destruct e as [| sym | sym |]; cbn [handle_event];
      match goal with
      | |- context [fold_left handle_event events (?r, ?k)] =>
          destruct (IH r k) as (H1 & H2 & H3 & H4)
      end;
      rewrite H1, H2, H3, H4;
      cbn [existsb is_quit is_keydown is_keyup last_key_event negb orb andb].
    + rewrite andb_false_r. destruct (last_key_event key events); auto.
    + unfold set_key. destruct (Z.eqb_spec key sym) as [Heq | Hne].
      * subst sym. rewrite Z.eqb_refl. cbn [pressed released held orb].
        rewrite ?orb_true_r. destruct (last_key_event key events); auto.
      * replace (sym =? key) with false
          by (symmetry; apply Z.eqb_neq; congruence).
        cbn [orb]. destruct (last_key_event key events); auto.
    + unfold set_key. destruct (Z.eqb_spec key sym) as [Heq | Hne].
      * subst sym. rewrite Z.eqb_refl. cbn [pressed released held orb].
        rewrite ?orb_true_r. destruct (last_key_event key events); auto.
      * replace (sym =? key) with false
          by (symmetry; apply Z.eqb_neq; congruence).
        cbn [orb]. destruct (last_key_event key events); auto.
    + destruct (last_key_event key events); auto.
Qed.

(** X9.  After one frame of input, [isPressed key] tells whether a key-down
    for the key arrived in this frame and [isReleased key] whether a key-up
    did, whatever they were before; [isHeld key] follows the last key event
    for the key and keeps its earlier value when there was none; the loop
    keeps running exactly when it was running and no quit event arrived. *)
Theorem poll_events_key_state (running : bool) (kb : Keyboard)
    (events : list Event) (key : Z) :
  let st := poll_events running kb events in
  fst st = running && negb (existsb is_quit events) /\
  isPressed (snd st) key = existsb (is_keydown key) events /\
  isReleased (snd st) key = existsb (is_keyup key) events /\
  isHeld (snd st) key = match last_key_event key events with
                        | Some b => b
                        | None => isHeld kb key
                        end.
Proof.
  cbv zeta. unfold poll_events, isPressed, isReleased, isHeld.
  destruct (fold_handle_event key events running (begin_frame kb))
    as (H1 & H2 & H3 & H4).
  rewrite H1, H2, H3, H4. unfold begin_frame. cbn [pressed released held].
  auto.
Qed.

(** ** Building the line list *)

Section LineListFacts.
Context {F : Type} {SF : Scalar F}.

Lemma pair_induction (P : list Z -> Prop) :
  P [] -> (forall a, P [a]) -> (forall a b l, P l -> P (a :: b :: l)) ->
  forall l, P l.
Proof.
  intros H0 H1 H2.
  assert (forall l, P l /\ forall a, P (a :: l)) as Hboth.
  { induction l as [| b l [IHl IHa]]; split; auto. }
  intros l. apply Hboth.
Qed.

Lemma model_lines_ok (m : Model F) (idx : list Z) :
  (exists ls, model_lines m idx = Some ls) <->
  Nat.Even (length idx) /\
  Forall (fun i => (Z.to_nat i < length (vertices m))%nat) idx.
Proof.
  induction idx as [| a | a b l IH] using pair_induction.
  - split; [intros _; split; [exists 0%nat; reflexivity | constructor] |].
    intros _. now exists [].
  - split.
    + intros [ls Hls]. discriminate.
    + intros [[k Hk] _]. simpl in Hk. lia.
  - cbn [model_lines length]. split.
    + intros [ls Hls].
      destruct (nth_error (vertices m) (Z.to_nat a)) as [va |] eqn:Ha;
        [| discriminate].
      destruct (nth_error (vertices m) (Z.to_nat b)) as [vb |] eqn:Hb;
        [| discriminate].
      destruct (model_lines m l) as [ls' |] eqn:Hl; [| discriminate].
      destruct (proj1 IH (ex_intro _ ls' eq_refl)) as [[k Hk] Hall].
      split; [exists (S k); lia |].
      constructor; [| constructor; [| exact Hall]].
      * apply nth_error_Some. congruence.
      * apply nth_error_Some. congruence.
    + intros [[k Hk] Hall].
      inversion Hall as [| ? ? Ha Hall']; subst.
      inversion Hall' as [| ? ? Hb Hall'']; subst.
      destruct (proj2 IH) as [ls' Hls'].
      { split; [exists (pred k); lia | exact Hall'']. }
      apply nth_error_Some in Ha. apply nth_error_Some in Hb.
      destruct (nth_error (vertices m) (Z.to_nat a)) as [va |]; [| congruence].
      destruct (nth_error (vertices m) (Z.to_nat b)) as [vb |]; [| congruence].
      rewrite Hls'. eexists. reflexivity.
Qed.

Lemma model_lines_shape (m : Model F) (idx : list Z) :
  forall ls, model_lines m idx = Some ls ->
  length idx = (2 * length ls)%nat /\
  forall ln, In ln ls ->
    ltexture ln = texture m /\
    exists va vb, In va (vertices m) /\ In vb (vertices m) /\
      la ln = Vec3_add (pos va) (position (m_object m)) /\
      lb ln = Vec3_add (pos vb) (position (m_object m)) /\
      lu0 ln = vert_u va /\ lu1 ln = vert_u vb.
Proof.
  induction idx as [| a | a b l IH] using pair_induction; intros ls Hls.
  - injection Hls as <-. split; [reflexivity | intros ln []].
  - discriminate.
  - cbn [model_lines] in Hls.
    destruct (nth_error (vertices m) (Z.to_nat a)) as [va |] eqn:Ha;
      [| discriminate].
    destruct (nth_error (vertices m) (Z.to_nat b)) as [vb |] eqn:Hb;
      [| discriminate].
    destruct (model_lines m l) as [ls' |] eqn:Hl; [| discriminate].
    injection Hls as <-. destruct (IH ls' eq_refl) as [Hlen Hin].
    split; [cbn [length]; lia |].
    intros ln [<- | Hln]; [| now apply Hin].
    split; [reflexivity |]. exists va, vb.
    apply nth_error_In in Ha. apply nth_error_In in Hb. auto 10.
Qed.
End LineListFacts.

(** X10.  The line list of a model is built exactly when its index count is
    even and every index is inside the vertex list; it then has half as many
    lines as indices, each carrying the model's texture, with ends that are
    vertices of the model moved by the model's position and the U of those
    vertices. *)
Theorem model_lines_built_iff_well_formed
    (F : Type) (SF : Scalar F) (m : Model F) :
  ((exists ls, model_lines m (indices m) = Some ls) <->
   Nat.Even (length (indices m)) /\
   Forall (fun i => (Z.to_nat i < length (vertices m))%nat) (indices m)) /\
  (forall ls, model_lines m (indices m) = Some ls ->
     length (indices m) = (2 * length ls)%nat /\
     forall ln, In ln ls ->
       ltexture ln = texture m /\
       exists va vb, In va (vertices m) /\ In vb (vertices m) /\
         la ln = Vec3_add (pos va) (position (m_object m)) /\
         lb ln = Vec3_add (pos vb) (position (m_object m)) /\
         lu0 ln = vert_u va /\ lu1 ln = vert_u vb).
Proof.
  split; [apply model_lines_ok | apply model_lines_shape].
Qed.

(** The corridor model is well formed and gives 4 lines; with one index
    dropped it gives none. *)
Lemma model_lines_built_iff_well_formed_example :
  (exists ls, @model_lines _ b32 Scene.corridor (indices Scene.corridor) = Some ls) /\
  @model_lines _ b32 Scene.corridor [0; 1; 2] = None.
Proof.
  split; [| reflexivity].
  apply (proj1 (@model_lines_built_iff_well_formed _ b32 Scene.corridor)).
  split.
  - exists 4%nat. reflexivity.
  - repeat constructor.
Defined.

(** ** Hits and their line indices *)

Section HitIndexFacts.
Context {F : Type} {SF : Scalar F}.

Lemma collect_hits_index (ls : list (Line F)) (o d : Vec3 F) :
  forall k i h, 0 <= k -> In (i, h) (collect_hits k ls o d) ->
    k <= i /\ nth_error ls (Z.to_nat (i - k)) = Some (hi_line h).
Proof.
  induction ls as [| ln ls IH]; intros k i h Hk Hin; [contradiction |].
  cbn [collect_hits] in Hin.
  assert (In (i, h) (collect_hits (k + 1) ls o d) ->
          k <= i /\ nth_error (ln :: ls) (Z.to_nat (i - k)) = Some (hi_line h))
    as Hrest.
  { intros Hr. destruct (IH (k + 1) i h ltac:(lia) Hr) as [Hle Hnth].
    split; [lia |].
    replace (Z.to_nat (i - k)) with (S (Z.to_nat (i - (k + 1)))) by lia.
    exact Hnth. }
  destruct (raySeg o d _ _) as [[[[hp hn] t] u] |]; [| now apply Hrest].
  destruct Hin as [Heq | Hin]; [| now apply Hrest].
  injection Heq as <- <-. split; [lia |].
  now rewrite Z.sub_diag.
Qed.

Lemma collect_hits_sorted_indices (ls : list (Line F)) (o d : Vec3 F) :
  forall k, StronglySorted Z.lt (map fst (collect_hits k ls o d)) /\
            Forall (fun e => k <= fst e) (collect_hits k ls o d).
Proof.
  induction ls as [| ln ls IH]; intros k; cbn [collect_hits].
  - split; constructor.
  - destruct (IH (k + 1)) as [Hs Hf].
    assert (Forall (fun e : Z * HitInfo F => k <= fst e)
                   (collect_hits (k + 1) ls o d)) as Hf'.
    { eapply Forall_impl; [| exact Hf]. cbv beta. intros e He. lia. }
    destruct (raySeg o d _ _) as [[[[hp hn] t] u] |]; [| now split].
    split.
    + cbn [map fst]. constructor; [exact Hs |].
      rewrite Forall_map. eapply Forall_impl; [| exact Hf].
      cbv beta. intros e He. lia.
    + constructor; [cbn [fst]; lia | exact Hf'].
Qed.
End HitIndexFacts.

(** X11.  In the list [rayLines] collects, the index stored with a hit is the
    position of the hit's line in the line list, the hit record carries what
    [raySeg] returned for that line, and the entries are in strictly
    increasing index order: no line is entered twice. *)
Theorem collect_hits_indices
    (F : Type) (SF : Scalar F) (ls : list (Line F)) (o d : Vec3 F) :
  StronglySorted Z.lt (map fst (collect_hits 0 ls o d)) /\
  forall i h, In (i, h) (collect_hits 0 ls o d) ->
    0 <= i < Z.of_nat (length ls) /\
    nth_error ls (Z.to_nat i) = Some (hi_line h) /\
    raySeg o d (world_a (hi_line h)) (world_b (hi_line h))
      = Some (hi_position h, hi_normal h, hi_distance h, hi_u h).
Proof.
  split; [apply collect_hits_sorted_indices |].
  intros i h Hin.
  destruct (@collect_hits_index F SF ls o d 0 i h ltac:(lia) Hin) as [Hle Hnth].
  rewrite Z.sub_0_r in Hnth.
  destruct (collect_hits_sound _ _ _ _ _ _ Hin) as [ln [_ [Hline Hray]]].
  split; [| split; [exact Hnth | now rewrite Hline]].
  split; [lia |].
  assert (Z.to_nat i < length ls)%nat by (apply nth_error_Some; congruence).
  lia.
Qed.

(** ** Collision does not depend on the order of the lines *)

(** X12.  [circleLines] gives the same answer for any rearrangement of the
    line list, and a position rejected for some lines stays rejected when
    more lines are added. *)
Theorem circleLines_order_independent
    (F : Type) (SF : Scalar F) (ls ls' more : list (Line F)) (p : Vec3 F) (r : F) :
  (Permutation ls ls' -> circleLines ls p r = circleLines ls' p r) /\
  (circleLines ls p r = true -> circleLines (ls ++ more) p r = true).
Proof.
  split.
  - intros Hperm.
    destruct (circleLines ls p r) eqn:H1; destruct (circleLines ls' p r) eqn:H2;
      try reflexivity.
    + apply circleLines_true_iff in H1. destruct H1 as [ln [Hin Hb]].
      assert (circleLines ls' p r = true) as H3.
      { apply circleLines_true_iff. exists ln. split; [| exact Hb].
        now apply (Permutation_in _ Hperm). }
      congruence.
    + apply circleLines_true_iff in H2. destruct H2 as [ln [Hin Hb]].
      assert (circleLines ls p r = true) as H3.
      { apply circleLines_true_iff. exists ln. split; [| exact Hb].
        now apply (Permutation_in _ (Permutation_sym Hperm)). }
      congruence.
  - intros H1. apply circleLines_true_iff in H1. destruct H1 as [ln [Hin Hb]].
    apply circleLines_true_iff. exists ln. split; [| exact Hb].
    apply in_or_app. now left.
Qed.

(** In the 6 x 6 room the position (47.5, 24) is rejected with the walls in
    the order built and in reverse order. *)
Lemma circleLines_order_independent_example :
  @circleLines _ b32 (rev Scene.room_lines)
     (mkVec3 (Scene.dec 95 2) (Scene.num 24) (Scene.num 0)) (Scene.dec 8 10)
  = @circleLines _ b32 Scene.room_lines
     (mkVec3 (Scene.dec 95 2) (Scene.num 24) (Scene.num 0)) (Scene.dec 8 10).
Proof.
  symmetry.
  apply (proj1 (@circleLines_order_independent _ b32 Scene.room_lines
                  (rev Scene.room_lines) []
                  (mkVec3 (Scene.dec 95 2) (Scene.num 24) (Scene.num 0))
                  (Scene.dec 8 10))).
  apply Permutation_rev.
Defined.

(** ** The fixed-step loop in exact arithmetic *)

Section ExactUpdate.
Local Existing Instance Rscalar.
Local Open Scope R_scope.

Lemma update_loop_R (G : Type) (update : G -> G) (timeStep : R) (n : nat) :
  0 < timeStep ->
  forall (fuel : nat) (accum : R) (g : G) (canRender : bool),
  INR n * timeStep <= accum < (INR n + 1) * timeStep ->
  (n < fuel)%nat ->
  update_loop fuel update timeStep accum g canRender
  = Some (iterate n update g, accum - INR n * timeStep,
          canRender || (0 <? n)%nat).
Proof.
  intros Hts. induction n as [| n IH]; intros fuel accum g canRender Hacc Hfuel.
  - destruct fuel as [| fuel]; [lia |]. cbn [update_loop iterate].
    simpl INR in *. change (fleb timeStep accum) with (Rleb timeStep accum).
    destruct (Rleb timeStep accum) eqn:Hle.
    + apply Rleb_true_iff in Hle. lra.
    + rewrite orb_false_r. do 2 f_equal. f_equal. ring.
  - destruct fuel as [| fuel]; [lia |]. cbn [update_loop iterate].
    rewrite S_INR in Hacc.
    change (fleb timeStep accum) with (Rleb timeStep accum).
    assert (0 <= INR n) as Hn by apply pos_INR.
    destruct (Rleb timeStep accum) eqn:Hle.
    + change (fsub accum timeStep) with (accum - timeStep).
      rewrite (IH fuel (accum - timeStep) (update g) true);
        [| nra | lia].
      rewrite orb_true_r, S_INR. cbn [orb]. do 2 f_equal. f_equal. ring.
    + exfalso. assert (~ timeStep <= accum) as Hnle.
      { intros Hc. apply Rleb_true_iff in Hc. congruence. }
      apply Hnle. nra.
Qed.

End ExactUpdate.

(** X13.  The update loop of [run] in exact arithmetic with a positive time
    step: when the accumulator holds at least [n] and less than [n + 1]
    steps, the loop runs [onUpdate] exactly [n] times, leaves the accumulator
    reduced by [n] steps (so less than one step), and sets [canRender] when
    [n] is not zero. *)
Theorem update_loop_fixed_step (G : Type) (update : G -> G) (timeStep accum : R)
    (g : G) (canRender : bool) (n fuel : nat) :
  (0 < timeStep)%R ->
  (INR n * timeStep <= accum < (INR n + 1) * timeStep)%R ->
  (n < fuel)%nat ->
  @update_loop R Rscalar G fuel update timeStep accum g canRender
  = Some (iterate n update g, (accum - INR n * timeStep)%R,
          canRender || (0 <? n)%nat).
Proof.
  intros Hts Hacc Hfuel. now apply update_loop_R.
Qed.

(** With a step of 1/60 s and 1/24 s accumulated, two updates run. *)
Lemma update_loop_fixed_step_example :
  @update_loop R Rscalar nat 3 S (1 / 60)%R (1 / 24)%R 0%nat false
  = Some (2%nat, (1 / 24 - INR 2 * (1 / 60))%R, true).
Proof.
  apply (@update_loop_fixed_step nat S (1 / 60)%R (1 / 24)%R 0%nat false 2 3).
  - lra.
  - simpl INR. lra.
  - lia.
Defined.

(** ** The closest point of a wall *)

Section ExactClosestPoint.
Local Existing Instance Rscalar.
Local Open Scope R_scope.

Lemma closestPoint_foot_R (a b p : Vec3 R) :
  Vec3_dot (Vec3_sub b a) (Vec3_sub b a) <> 0 ->
  Vec3_dot (Vec3_sub p (fst (closestPoint a b p))) (Vec3_sub b a) = 0.
Proof.
  destruct a as [ax ay az], b as [bx by_ bz], p as [px py pz].
  unfold closestPoint, Vec3_dot, Vec3_sub, Vec3_add, Vec3_scale. cbn.
  intros Hd. field. exact Hd.
Qed.

Lemma closestPoint_gap_R (a b p : Vec3 R) (s : R) :
  Vec3_dot (Vec3_sub b a) (Vec3_sub b a) <> 0 ->
  let c := fst (closestPoint a b p) in
  let t := snd (closestPoint a b p) in
  let q := Vec3_add a (Vec3_scale (Vec3_sub b a) s) in
  Vec3_dot (Vec3_sub q p) (Vec3_sub q p)
  = Vec3_dot (Vec3_sub c p) (Vec3_sub c p)
    + (s - t) * (s - t) * Vec3_dot (Vec3_sub b a) (Vec3_sub b a).
Proof.
  destruct a as [ax ay az], b as [bx by_ bz], p as [px py pz].
  unfold closestPoint, Vec3_dot, Vec3_sub, Vec3_add, Vec3_scale. cbn.
  intros Hd. field. exact Hd.
Qed.

Lemma dot_self_nonneg (v : Vec3 R) : 0 <= Vec3_dot v v.
Proof.
  destruct v as [x y z]. unfold Vec3_dot. cbn.
  pose proof (Rle_0_sqr x). pose proof (Rle_0_sqr y). pose proof (Rle_0_sqr z).
  unfold Rsqr in *. lra.
Qed.
End ExactClosestPoint.

(** X15.  In exact arithmetic, for a segment with two different ends,
    [closestPoint] returns the foot of the perpendicular from [p] on the line
    through [a] and [b]: the returned point is [a + (b - a) * t] for the
    returned [t], the vector from it to [p] is at a right angle to the
    segment, and no point of that line is nearer to [p]. *)
Theorem closestPoint_is_nearest (a b p : Vec3 R) (s : R) :
  @Vec3_dot R Rscalar (@Vec3_sub R Rscalar b a) (@Vec3_sub R Rscalar b a) <> 0%R ->
  let c := fst (@closestPoint R Rscalar a b p) in
  let t := snd (@closestPoint R Rscalar a b p) in
  c = @Vec3_add R Rscalar a (@Vec3_scale R Rscalar (@Vec3_sub R Rscalar b a) t) /\
  @Vec3_dot R Rscalar (@Vec3_sub R Rscalar p c) (@Vec3_sub R Rscalar b a) = 0%R /\
  (@Vec3_length R Rscalar (@Vec3_sub R Rscalar c p)
   <= @Vec3_length R Rscalar
        (@Vec3_sub R Rscalar
           (@Vec3_add R Rscalar a
              (@Vec3_scale R Rscalar (@Vec3_sub R Rscalar b a) s)) p))%R.
Proof.
  intros Hd c t. split; [reflexivity |].
  split; [now apply closestPoint_foot_R |].
  unfold Vec3_length. apply sqrt_le_1_alt.
  rewrite (@closestPoint_gap_R a b p s Hd). fold c.
  pose proof (dot_self_nonneg (@Vec3_sub R Rscalar b a)) as Hab.
  assert (0 <= (s - snd (@closestPoint R Rscalar a b p))
               * (s - snd (@closestPoint R Rscalar a b p)))%R as Hsq.
  { apply Rle_0_sqr. }
  pose proof (Rmult_le_pos _ _ Hsq Hab). 
  change fadd with Rplus. change fmul with Rmult. change fsub with Rminus.
  lra.
Qed.

(** The wall from (0, 0) to (8, 0) and the position (3, 4): no point of the
    wall's line is nearer than the returned one, here compared with the
    end [a]. *)
Lemma closestPoint_is_nearest_example :
  (@Vec3_length R Rscalar
     (@Vec3_sub R Rscalar
        (fst (@closestPoint R Rscalar (mkVec3 0 0 0) (mkVec3 8 0 0) (mkVec3 3 4 0)))
        (mkVec3 3 4 0))
   <= @Vec3_length R Rscalar
        (@Vec3_sub R Rscalar
           (@Vec3_add R Rscalar (mkVec3 0 0 0)
              (@Vec3_scale R Rscalar
                 (@Vec3_sub R Rscalar (mkVec3 8 0 0) (mkVec3 0 0 0)) 0))
           (mkVec3 3 4 0)))%R.
Proof.
  apply (@closestPoint_is_nearest (mkVec3 0 0 0) (mkVec3 8 0 0) (mkVec3 3 4 0) 0)%R.
  unfold Vec3_dot, Vec3_sub. cbn. lra.
Defined.

(** ** The ray and segment test as a solver *)

Section ExactRaySeg.
Local Existing Instance Rscalar.
Local Open Scope R_scope.

Lemma raySeg_quotients_solve (o d a b : Vec3 R) (t u : R) :
  ray_denominator o d a b <> 0 ->
  vx o + vx d * t = vx a + (vx b - vx a) * u ->
  vy o + vy d * t = vy a + (vy b - vy a) * u ->
  raySeg_quotients o d a b = (ray_denominator o d a b, t, u).
Proof.
  destruct o as [ox oy oz], d as [dx dy dz], a as [ax ay az], b as [bx by_ bz].
  unfold ray_denominator, raySeg_quotients, Vec3_dot, Vec3_cross, Vec3_sub.
  cbn. intros Hd Hx Hy.
  assert (ox = ax + (bx - ax) * u - dx * t) as -> by lra.
  assert (oy = ay + (by_ - ay) * u - dy * t) as -> by lra.
  f_equal; [f_equal |]; field; intros Hz; apply Hd; rewrite <- Hz at 2; ring.
Qed.

Lemma raySeg_complete_R (o d a b : Vec3 R) (t u : R) :
  ray_denominator o d a b <> 0 ->
  0 <= t -> 0 <= u <= 1 ->
  vx o + vx d * t = vx a + (vx b - vx a) * u ->
  vy o + vy d * t = vy a + (vy b - vy a) * u ->
  raySeg o d a b
  = Some (mkVec3 (vx o + vx d * t) (vy o + vy d * t) 0,
          Vec3_angle (- (vy b - vy a)) (vx b - vx a), t, u).
Proof.
  intros Hd Ht Hu Hx Hy. unfold raySeg.
  rewrite (raySeg_quotients_solve Hd Hx Hy).
  change (fleb (of_Z 0) t) with (Rleb 0 t).
  change (fleb (of_Z 0) u) with (Rleb 0 u).
  change (fleb u (of_Z 1)) with (Rleb u 1).
  rewrite (proj2 (Rleb_true_iff 0 t) Ht).
  rewrite (proj2 (Rleb_true_iff 0 u) (proj1 Hu)).
  rewrite (proj2 (Rleb_true_iff u 1) (proj2 Hu)).
  cbn. rewrite Hx, Hy. reflexivity.
Qed.
End ExactRaySeg.

(** X16.  In exact arithmetic, for a ray and a segment that are not parallel
    (non-zero denominator), [raySeg] solves [o + d * t = a + (b - a) * u] in
    the plane: it reports a hit exactly when the solution has [0 <= t] and
    [0 <= u <= 1], and then returns that point with z = 0, that [t] and that
    [u]. *)
Theorem raySeg_solves_intersection (o d a b : Vec3 R) :
  @ray_denominator R Rscalar o d a b <> 0%R ->
  (forall hp hn t u,
     @raySeg R Rscalar o d a b = Some (hp, hn, t, u) ->
     (0 <= t)%R /\ (0 <= u <= 1)%R /\
     hp = mkVec3 (vx o + vx d * t)%R (vy o + vy d * t)%R 0%R /\
     hp = mkVec3 (vx a + (vx b - vx a) * u)%R (vy a + (vy b - vy a) * u)%R 0%R) /\
  (forall t u,
     (0 <= t)%R -> (0 <= u <= 1)%R ->
     (vx o + vx d * t = vx a + (vx b - vx a) * u)%R ->
     (vy o + vy d * t = vy a + (vy b - vy a) * u)%R ->
     @raySeg R Rscalar o d a b
     = Some (mkVec3 (vx o + vx d * t)%R (vy o + vy d * t)%R 0%R,
             @Vec3_angle R Rscalar (- (vy b - vy a))%R (vx b - vx a)%R, t, u)).
Proof.
  intros Hd. split.
  - intros hp hn t u Hr.
    destruct (raySeg_some _ _ _ _ Hr) as [Ht [Hu0 [Hu1 _]]].
    apply Rleb_true_iff in Ht. apply Rleb_true_iff in Hu0.
    apply Rleb_true_iff in Hu1.
    destruct (raySeg_hit_on_ray_R Hd Hr) as [Hx [Hy _]].
    destruct (raySeg_hit_values _ _ _ _ Hr) as [Hhp _].
    split; [exact Ht |]. split; [split; assumption |].
    assert (hp = mkVec3 (vx a + (vx b - vx a) * u)%R
                        (vy a + (vy b - vy a) * u)%R 0%R) as Hab.
    { rewrite Hhp. reflexivity. }
    split; [| exact Hab].
    rewrite Hab in Hx, Hy. cbn in Hx, Hy. rewrite Hab. f_equal; assumption.
  - intros t u Ht Hu Hx Hy. now apply raySeg_complete_R.
Qed.

(** The ray from (1, 4) along +x meets the wall from (8, 0) to (8, 8) at
    (8, 4): t = 7, u = 1/2. *)
Lemma raySeg_solves_intersection_example :
  (@raySeg R Rscalar (mkVec3 1 4 0) (mkVec3 1 0 0) (mkVec3 8 0 0) (mkVec3 8 8 0)
   = Some (mkVec3 (1 + 1 * 7) (4 + 0 * 7) 0,
           @Vec3_angle R Rscalar (- (8 - 0)) (8 - 8), 7, 1 / 2))%R.
Proof.
  refine (proj2 (@raySeg_solves_intersection (mkVec3 1 4 0)%R (mkVec3 1 0 0)%R
                   (mkVec3 8 0 0)%R (mkVec3 8 8 0)%R _) 7%R (1 / 2)%R _ _ _ _).
  - unfold ray_denominator, raySeg_quotients, Vec3_dot, Vec3_sub. cbn. lra.
  - lra.
  - lra.
  - cbn. lra.
  - cbn. lra.
Defined.

(** ** Sampling a texture in exact arithmetic *)

Section ExactTexture.
Local Existing Instance Rscalar.
Local Open Scope R_scope.

Lemma nth_Forall (P : Z -> Prop) (l : list Z) (d : Z) (n : nat) :
  Forall P l -> P d -> P (nth n l d).
Proof.
  intros Hl Hd. revert n.
  induction Hl as [| x l Hx Hl IH]; intros [| n]; simpl; auto.
Qed.

Lemma get_unit_colour (tex : Texture) (x y : Z) :
  byte_pixels tex -> unit_colour (get tex x y).
Proof.
  intros Hb. unfold get, unit_colour.
  destruct (orb _ _); cbn; [lra |].
  assert (forall n, 0 <= IZR (nth n (m_pixels tex) 0%Z) / 255 <= 1) as Hpx.
  { intros n.
    assert (0 <= 0 <= 255)%Z as Hd by lia.
    destruct (@nth_Forall (fun p => (0 <= p <= 255)%Z) (m_pixels tex) 0%Z n
                Hb Hd) as [H0 H1].
    apply IZR_le in H0, H1. split.
    - apply Rmult_le_reg_r with 255; [lra |].
      unfold Rdiv. rewrite Rmult_assoc, Rinv_l by lra. lra.
    - apply Rmult_le_reg_r with 255; [lra |].
      unfold Rdiv. rewrite Rmult_assoc, Rinv_l by lra. lra. }
  repeat split; apply Hpx.
Qed.

Lemma mix_unit (a b s : R) :
  0 <= a <= 1 -> 0 <= b <= 1 -> 0 <= s <= 1 ->
  0 <= a * (1 - s) + b * s <= 1.
Proof. intros Ha Hb Hs. nra. Qed.

Lemma mix_unit_colour (a b : Vec3 R) (s : R) :
  unit_colour a -> unit_colour b -> 0 <= s <= 1 ->
  unit_colour (Vec3_add (Vec3_scale a (1 - s)) (Vec3_scale b s)).
Proof.
  intros [Ha1 [Ha2 Ha3]] [Hb1 [Hb2 Hb3]] Hs.
  unfold unit_colour, Vec3_add, Vec3_scale. cbn.
  repeat split; apply mix_unit; assumption.
Qed.

(** The fraction left after the conversion to [u32] and back. *)
Lemma fraction_R (U : R) :
  0 <= U < IZR u32_mod ->
  R_to_u32 (IZR (Int_part U)) = Int_part U /\
  0 <= U - IZR (Int_part U) < 1.
Proof.
  intros [H0 H1].
  destruct (base_Int_part U) as [Hlo Hhi].
  assert (0 <= Int_part U)%Z as Hnn by now apply Int_part_nonneg.
  assert (Int_part U < u32_mod)%Z as Hlt.
  { apply lt_IZR. lra. }
  split; [apply R_to_u32_IZR; lia | lra].
Qed.

Lemma sample_unit_colour_R (tex : Texture) (u v : R) :
  byte_pixels tex ->
  0 <= u * IZR (m_width tex) < IZR u32_mod ->
  0 <= v * IZR (m_height tex) < IZR u32_mod ->
  unit_colour (sample tex u v).
Proof.
  intros Hb Hu Hv. unfold sample. cbn.
  destruct (fraction_R Hu) as [-> Hur]. destruct (fraction_R Hv) as [-> Hvr].
  apply mix_unit_colour; [| | lra];
    (apply mix_unit_colour; [| | lra]); now apply get_unit_colour.
Qed.

End ExactTexture.

(** X17.  In exact arithmetic, for a texture that holds bytes and
    coordinates whose scaled values lie in the range of [u32], every channel
    of the colour [sample] returns is between 0 and 1: the bilinear weights
    are in [0, 1] and add up to 1. *)
Theorem sample_colour_in_unit_range (tex : Texture) (u v : R) :
  byte_pixels tex ->
  (0 <= u * IZR (m_width tex) < IZR u32_mod)%R ->
  (0 <= v * IZR (m_height tex) < IZR u32_mod)%R ->
  unit_colour (@sample R Rscalar tex u v).
Proof.
  intros Hb Hu Hv. now apply sample_unit_colour_R.
Qed.

(** The two-texel texture at u = 1/4, v = 1/2. *)
Lemma sample_colour_in_unit_range_example :
  unit_colour (@sample R Rscalar Scene.checker (1 / 4)%R (1 / 2)%R).
Proof.
  apply (@sample_colour_in_unit_range Scene.checker (1 / 4)%R (1 / 2)%R).
  - unfold byte_pixels, Scene.checker. cbn. repeat constructor; lia.
  - cbn. lra.
  - cbn. lra.
Defined.

(** ** Rotations *)

Section ExactVectors.
Local Existing Instance Rscalar.
Local Open Scope R_scope.

Lemma sin_cos_sq (t : R) : sin t * sin t + cos t * cos t = 1.
Proof. pose proof (sin2_cos2 t) as H. unfold Rsqr in H. exact H. Qed.

Lemma rotateZ_dot_R (a : Vec3 R) (t : R) :
  Vec3_dot (Vec3_rotateZ a t) (Vec3_rotateZ a t) = Vec3_dot a a.
Proof.
  destruct a as [x y z]. unfold Vec3_rotateZ, Vec3_dot. cbn.
  pose proof (sin_cos_sq t) as H.
  replace ((x * cos t - y * sin t) * (x * cos t - y * sin t)
           + (x * sin t + y * cos t) * (x * sin t + y * cos t) + z * z)
    with ((x * x + y * y) * (sin t * sin t + cos t * cos t) + z * z) by ring.
  rewrite H. ring.
Qed.

End ExactVectors.

(** X19.  In exact arithmetic [rotateZ] is a rotation about the z axis: it
    keeps z and the length, the angle 0 changes nothing, and two rotations
    in a row are the rotation by the sum of the angles. *)
Theorem Vec3_rotateZ_is_rotation (a : Vec3 R) (s t : R) :
  vz (@Vec3_rotateZ R Rscalar a t) = vz a /\
  @Vec3_length R Rscalar (@Vec3_rotateZ R Rscalar a t) = @Vec3_length R Rscalar a /\
  @Vec3_rotateZ R Rscalar a 0%R = a /\
  @Vec3_rotateZ R Rscalar (@Vec3_rotateZ R Rscalar a s) t
  = @Vec3_rotateZ R Rscalar a (s + t)%R.
Proof.
  split; [reflexivity |].
  split; [unfold Vec3_length; now rewrite rotateZ_dot_R |].
  destruct a as [x y z]. unfold Vec3_rotateZ. cbn.
  split.
  - rewrite sin_0, cos_0. f_equal; ring.
  - rewrite sin_plus, cos_plus. f_equal; ring.
Qed.

(** ** Walls of length zero in binary32 *)

Lemma sub_self_zero_or_nan (x : spec_float) : zero_or_nan (B32.sub x x).
Proof.
  destruct x as [s | s | | s m e]; unfold zero_or_nan, B32.sub, SFsub.
  - right. exists false. now destruct s.
  - left. now destruct s.
  - now left.
  - right. exists false. cbv zeta. now rewrite Z.sub_diag.
Qed.

Lemma mul_zero_or_nan_l (x y : spec_float) :
  zero_or_nan x -> zero_or_nan (B32.mul x y).
Proof.
  intros [-> | [s ->]]; unfold zero_or_nan, B32.mul, SFmul;
    destruct y; cbn; eauto.
Qed.

Lemma mul_zero_or_nan_r (x y : spec_float) :
  zero_or_nan y -> zero_or_nan (B32.mul x y).
Proof.
  intros [-> | [s ->]]; unfold zero_or_nan, B32.mul, SFmul;
    destruct x; cbn; eauto.
Qed.

Lemma add_zero_or_nan (x y : spec_float) :
  zero_or_nan x -> zero_or_nan y -> zero_or_nan (B32.add x y).
Proof.
  intros [-> | [s ->]] [-> | [s' ->]]; unfold zero_or_nan, B32.add, SFadd;
    cbn; eauto; destruct s, s'; eauto.
Qed.

Lemma sub_zero_or_nan (x y : spec_float) :
  zero_or_nan x -> zero_or_nan y -> zero_or_nan (B32.sub x y).
Proof.
  intros [-> | [s ->]] [-> | [s' ->]]; unfold zero_or_nan, B32.sub, SFsub;
    cbn; eauto; destruct s, s'; eauto.
Qed.

Lemma div_zero_or_nan (x y : spec_float) :
  zero_or_nan x -> zero_or_nan y -> B32.div x y = S754_nan.
Proof.
  intros [-> | [s ->]] [-> | [s' ->]]; reflexivity.
Qed.

Lemma zero_zero_or_nan : zero_or_nan (B32.of_int 0).
Proof. right. now exists false. Qed.

Create HintDb zn.
#[local] Hint Resolve sub_self_zero_or_nan mul_zero_or_nan_l mul_zero_or_nan_r
  add_zero_or_nan sub_zero_or_nan zero_zero_or_nan : zn.

Lemma raySeg_degenerate (o d a : Vec3 spec_float) :
  @raySeg _ b32 o d a a = None.
Proof.
  unfold raySeg, raySeg_quotients.
  cbn [vx vy vz Vec3_sub Vec3_dot Vec3_cross fsub fmul fadd fdiv fneg of_Z
       b32 b32_with].
  rewrite (@div_zero_or_nan
             (B32.sub (B32.mul (B32.sub (vx a) (vx a)) (B32.sub (vy o) (vy a)))
                      (B32.mul (B32.sub (vy a) (vy a)) (B32.sub (vx o) (vx a)))))
    by auto 10 with zn.
  reflexivity.
Qed.

Lemma closestPoint_degenerate (a p : Vec3 spec_float) :
  snd (@closestPoint _ b32 a a p) = S754_nan.
Proof.
  unfold closestPoint.
  cbn [snd vx vy vz Vec3_sub Vec3_dot fsub fmul fadd fdiv b32 b32_with].
  apply div_zero_or_nan; auto 10 with zn.
Qed.

(** X21.  In binary32, whatever the values (infinities and NaNs included), a
    line whose two ends are equal is never hit by a ray and never blocks a
    position: [raySeg] answers no-hit for it, [rayLines] collects nothing for
    it, and [circleLines] passes over it. *)
Theorem zero_length_line_is_inert
    (a : Vec3 spec_float) (u0 u1 : spec_float) (tex : Texture)
    (ls : list (Line spec_float)) (o d p : Vec3 spec_float) (r : spec_float)
    (k : Z) :
  let ln := mkLine a a u0 u1 tex in
  @raySeg _ b32 o d (@world_a _ b32 ln) (@world_b _ b32 ln) = None /\
  @collect_hits _ b32 k (ln :: ls) o d = @collect_hits _ b32 (k + 1) ls o d /\
  @circleLines _ b32 (ln :: ls) p r = @circleLines _ b32 ls p r.
Proof.
  intros ln.
  assert (@raySeg _ b32 o d (@world_a _ b32 ln) (@world_b _ b32 ln) = None)
    as Hray by apply raySeg_degenerate.
  split; [exact Hray |]. split.
  - cbn [collect_hits]. fold (@world_a _ b32 ln). fold (@world_b _ b32 ln).
    now rewrite Hray.
  - rewrite circleLines_cons. cbv zeta.
    change (@world_b _ b32 ln) with (@world_a _ b32 ln).
    rewrite closestPoint_degenerate. reflexivity.
Qed.

(** ** The distance of a column is a depth *)

Section ExactColumns.
Local Existing Instance Rscalar.
Local Open Scope R_scope.

Lemma column_ray_dot_R (g : RayCastGame R) (cv : GameCanvas) (x : Z) :
  Vec3_dot (column_ray g cv x) (Vec3_angle (rotation (v_object (viewer g))) 0) = 1
  /\ vz (column_ray g cv x) = 0.
Proof.
  unfold column_ray, Vec3_rotateZ, Vec3_angle, Vec3_dot. cbn.
  set (rot := rotation (v_object (viewer g))).
  set (thf := tan (fov (viewer g) / 2)).
  set (xf := IZR x / IZR (width cv) * 2 - 1).
  pose proof (sin_cos_sq rot) as H.
  split; [| reflexivity].
  replace ((cos rot + (0 * cos rot - thf * sin rot) * xf) * cos rot
           + (sin rot + (0 * sin rot + thf * cos rot) * xf) * sin rot + 0 * 0)
    with (sin rot * sin rot + cos rot * cos rot) by ring.
  exact H.
Qed.

Lemma hit_depth_R (o ray dir a b hp hn : Vec3 R) (t u : R) :
  Vec3_dot ray dir = 1 -> vz ray = 0 -> vz dir = 0 ->
  ray_denominator o ray a b <> 0 ->
  raySeg o ray a b = Some (hp, hn, t, u) ->
  Vec3_dot (Vec3_sub hp o) dir = t.
Proof.
  intros Hdot Hz Hdz Hd Hr.
  destruct (raySeg_hit_on_ray_R Hd Hr) as [Hx [Hy _]].
  destruct o as [ox oy oz], ray as [rx ry rz], dir as [dx dy dz],
           hp as [hx hy hz].
  unfold Vec3_dot, Vec3_sub in *. cbn in *. subst rz dz hx hy.
  replace ((ox + rx * t - ox) * dx + (oy + ry * t - oy) * dy + (hz - oz) * 0)
    with (t * (rx * dx + ry * dy + 0 * 0)) by ring.
  rewrite Hdot. ring.
Qed.

Lemma exact_demo_centre_ray :
  column_ray ExactDemo.game ExactDemo.canvas 2 = mkVec3 1 0 0.
Proof.
  unfold column_ray, Vec3_rotateZ, ExactDemo.game, ExactDemo.canvas. cbn.
  rewrite cos_0, sin_0. f_equal; field.
Qed.

Lemma exact_demo_hit :
  raySeg (mkVec3 1 20 0) (mkVec3 1 0 0) ExactDemo.far_a ExactDemo.far_b
  = Some (mkVec3 (1 + 1 * 7) (20 + 0 * 7) 0,
          Vec3_angle (- (32 - 0)) (8 - 8), 7, 5 / 8).
Proof.
  apply raySeg_complete_R; unfold ExactDemo.far_a, ExactDemo.far_b,
    ray_denominator, raySeg_quotients, Vec3_dot, Vec3_sub; cbn; lra.
Qed.
End ExactColumns.

(** X22.  In exact arithmetic the ray [onDraw] casts for a column has the
    component 1 along the viewing direction, whatever the column, the field
    of view and the rotation.  So for a segment the ray is not parallel to,
    the distance [raySeg] reports for that ray is the depth of the hit along
    the viewing direction, not its distance from the viewer. *)
Theorem column_distance_is_depth (g : RayCastGame R) (cv : GameCanvas) (x : Z)
    (a b hp hn : Vec3 R) (t u : R) :
  let o := position (v_object (viewer g)) in
  let ray := @column_ray R Rscalar g cv x in
  let dir := @Vec3_angle R Rscalar (rotation (v_object (viewer g))) 0%R in
  @ray_denominator R Rscalar o ray a b <> 0%R ->
  @raySeg R Rscalar o ray a b = Some (hp, hn, t, u) ->
  @Vec3_dot R Rscalar ray dir = 1%R /\
  @Vec3_dot R Rscalar (@Vec3_sub R Rscalar hp o) dir = t.
Proof.
  intros o ray dir Hd Hr.
  destruct (column_ray_dot_R g cv x) as [Hdot Hz].
  split; [exact Hdot |].
  exact (@hit_depth_R o ray dir a b hp hn t u Hdot Hz eq_refl Hd Hr).
Qed.

(** The centre column of the exact scene meets the wall at x = 8 at depth
    7. *)
Lemma column_distance_is_depth_example :
  (@Vec3_dot R Rscalar
     (@Vec3_sub R Rscalar (mkVec3 (1 + 1 * 7) (20 + 0 * 7) 0)
        (position (v_object (viewer ExactDemo.game))))
     (@Vec3_angle R Rscalar (rotation (v_object (viewer ExactDemo.game))) 0)
   = 7)%R.
Proof.
  refine (proj2 (@column_distance_is_depth ExactDemo.game ExactDemo.canvas 2
                   ExactDemo.far_a ExactDemo.far_b
                   (mkVec3 (1 + 1 * 7) (20 + 0 * 7) 0)%R
                   (@Vec3_angle R Rscalar (- (32 - 0)) (8 - 8))%R
                   7%R (5 / 8)%R _ _)).
  - rewrite exact_demo_centre_ray.
    unfold ray_denominator, raySeg_quotients, Vec3_dot, Vec3_sub,
      ExactDemo.far_a, ExactDemo.far_b. cbn. lra.
  - rewrite exact_demo_centre_ray. exact exact_demo_hit.
Defined.

(** ** Collision against the plane geometry *)

Section ExactCollision.
Local Existing Instance Rscalar.
Local Open Scope R_scope.










End ExactCollision.



(** ** The polygon generator *)

Section PillarFacts.
Context {F : Type} {SF : Scalar F}.



End PillarFacts.

Section ExactPillar.
Local Existing Instance Rscalar.
Local Open Scope R_scope.

End ExactPillar.


